(** * Vocabulary, tokenizer and padding collator of the NLP notebooks

    A shallow embedding of the Python classes [Vocab], [Tokenizer] and
    [PadCollate] (with [pad_tensor]) defined in the notebooks
    [ex1-getting-data-nn-ready] and [ex3-building-a-robust-configurable-nn],
    together with the properties stated about them.

    Python objects are records, [dict]s are finite maps, Python integers
    are [Z], and a method is a computation in a small state-and-exception
    monad over the object it is called on. *)

From Stdlib Require Import ZArith Ascii String List Lia.
From stdpp Require Import base tactics option list gmap strings.

Open Scope Z_scope.

(** ** Python exceptions and results *)

Inductive exn : Type :=
| AttributeError (attr : string)   (* reading an attribute never assigned *)
| KeyError                         (* [d[k]] with [k] not in the dict *)
| IndexError                       (* sequence index / tensor dim out of range *)
| ValueError                       (* [max] of an empty iterable *)
| RuntimeError.                    (* torch: bad size, shape mismatch *)

Inductive result (A : Type) : Type :=
| Ok (a : A)
| Raise (e : exn).
Arguments Ok {A} a.
Arguments Raise {A} e.

(** Stateless code (the free functions, the tensor library) runs in the
    exception monad alone. *)
#[export] Instance result_ret : MRet result := fun A a => Ok a.
#[export] Instance result_bind : MBind result := fun A B k r =>
  match r with
  | Ok a => k a
  | Raise e => Raise e
  end.

(** ** The [Vocab] class *)

Module Vocab.

(** The attributes of a [Vocab] instance. [unk_symbol] and [unk_id] are
    assigned by [__init__] only under [if not is_label], so on a label
    vocabulary the attributes do not exist: [None]. *)
Record t : Type := mk {
  size : Z;
  word_to_id : gmap string Z;
  id_to_word : gmap Z string;
  unk_symbol : option string;
  unk_id : option Z
}.

(** A method body: runs on the instance, returns a value or raises, and
    leaves the instance in a (possibly updated) state. *)
Definition M (A : Type) : Type := t -> result A * t.

Definition raise {A} (e : exn) : M A := fun v => (Raise e, v).

#[export] Instance M_ret : MRet M := fun A a v => (Ok a, v).
#[export] Instance M_bind : MBind M := fun A B k m v =>
  match m v with
  | (Ok a, v') => k a v'
  | (Raise e, v') => (Raise e, v')
  end.

(** Attribute reads ([self.f]) and writes ([self.f = x]). *)
Definition get {A} (f : t -> A) : M A := fun v => (Ok (f v), v).
Definition get_attr {A} (name : string) (f : t -> option A) : M A :=
  fun v => match f v with
           | Some a => (Ok a, v)
           | None => (Raise (AttributeError name), v)
           end.
Definition set_size (n : Z) : M unit :=
  fun v => (Ok tt, mk n (word_to_id v) (id_to_word v) (unk_symbol v) (unk_id v)).
Definition set_word_to_id (m : gmap string Z) : M unit :=
  fun v => (Ok tt, mk (size v) m (id_to_word v) (unk_symbol v) (unk_id v)).
Definition set_id_to_word (m : gmap Z string) : M unit :=
  fun v => (Ok tt, mk (size v) (word_to_id v) m (unk_symbol v) (unk_id v)).
Definition set_unk_symbol (s : string) : M unit :=
  fun v => (Ok tt, mk (size v) (word_to_id v) (id_to_word v) (Some s) (unk_id v)).
Definition set_unk_id (i : Z) : M unit :=
  fun v => (Ok tt, mk (size v) (word_to_id v) (id_to_word v) (unk_symbol v) (Some i)).

(** [d[k]] on a dict: [KeyError] when the key is missing. *)
Definition getitem {K V} `{Countable K} (d : gmap K V) (k : K) : M V :=
  match d !! k with
  | Some x => mret x
  | None => raise KeyError
  end.

(** [k in d]. *)
Definition contains {K V} `{Countable K} (d : gmap K V) (k : K) : bool :=
  bool_decide (is_Some (d !! k)).

(** <<
    def add_word(self, w):
        if w not in self.word_to_id:
            self.word_to_id[w] = self.size
            self.id_to_word[self.size] = w
            self.size += 1
        return self.size - 1
    >> *)
Definition add_word (w : string) : M Z :=
  d ← get word_to_id;
  (if negb (contains d w) then
     n ← get size;
     d ← get word_to_id;
     set_word_to_id (<[w := n]> d);;
     n ← get size;
     r ← get id_to_word;
     set_id_to_word (<[n := w]> r);;
     n ← get size;
     set_size (n + 1)
   else mret tt);;
  n ← get size;
  mret (n - 1).

(** <<
    def to_id(self, w):
       return self.word_to_id[w] if w in self.word_to_id else self.unk_id
    >> *)
Definition to_id (w : string) : M Z :=
  d ← get word_to_id;
  if contains d w then
    d ← get word_to_id;
    getitem d w
  else get_attr "unk_id" unk_id.

(** <<
    def to_word(self, id):
       return self.id_to_word[id] if id in self.id_to_word else self.unk_symbol
    >> *)
Definition to_word (id : Z) : M string :=
  r ← get id_to_word;
  if contains r id then
    r ← get id_to_word;
    getitem r id
  else get_attr "unk_symbol" unk_symbol.

(** <<
    def __len__(self):
        return self.size
    >> *)
Definition len : M Z := get size.

(** <<
    def __init__(self, unk_symbol='<unk>', is_label=False):
        self.size = 0
        self.word_to_id = {}
        self.id_to_word = {}
        if not is_label:
            self.unk_symbol = unk_symbol
            self.unk_id = self.add_word(unk_symbol)
    >> *)
Definition init (unk : string) (is_label : bool) : M unit :=
  set_size 0;;
  set_word_to_id ∅;;
  set_id_to_word ∅;;
  if negb is_label then
    set_unk_symbol unk;;
    i ← add_word unk;
    set_unk_id i
  else mret tt.

(** The object before [__init__] has run: no attribute carries data yet. *)
Definition blank : t := mk 0 ∅ ∅ None None.

(** [Vocab(unk_symbol, is_label)]. *)
Definition new (unk : string) (is_label : bool) : t :=
  snd (init unk is_label blank).

(** The default first argument of the constructor. *)
Definition default_unk : string := "<unk>".

(** The instance obtained from [Vocab(unk, is_label)] followed by the
    calls [add_word(w)] for [w] in [ws], in that order. *)
Definition after (unk : string) (is_label : bool) (ws : list string) : t :=
  foldl (fun v w => snd (add_word w v)) (new unk is_label) ws.

(** A call of one of the four methods, and the instance it leaves behind
    (whether the call returns or raises). *)
Inductive method : Type :=
| AddWord (w : string)
| ToId (w : string)
| ToWord (id : Z)
| Len.

Definition invoke (c : method) (v : t) : t :=
  match c with
  | AddWord w => (add_word w v).2
  | ToId w => (to_id w v).2
  | ToWord id => (to_word id v).2
  | Len => (len v).2
  end.

(** The tokens that a sequence of calls hands to [add_word]. *)
Definition added (cs : list method) : list string :=
  omap (fun c => match c with AddWord w => Some w | _ => None end) cs.

(** Every token handed to [add_word] so far, oldest first; the
    constructor's own call comes first when the unknown token is enabled. *)
Definition history (unk : string) (is_label : bool) (ws : list string)
  : list string :=
  (if is_label then [] else [unk]) ++ ws.

(** The distinct tokens of a sequence in order of first appearance. *)
Fixpoint first_seen (ws : list string) : list string :=
  match ws with
  | [] => []
  | w :: ws' => w :: filter (fun x => x ≠ w) (first_seen ws')
  end.

(** What the two dictionaries and the counter hold when the distinct
    tokens added so far are [order], oldest first: the token at position
    [i] has identifier [i], in both directions. *)
Definition numbered (order : list string) (v : t) : Prop :=
  size v = Z.of_nat (length order)
  /\ (forall w i, word_to_id v !! w = Some i <->
                  0 <= i /\ order !! Z.to_nat i = Some w)
  /\ (forall i w, id_to_word v !! i = Some w <->
                  0 <= i /\ order !! Z.to_nat i = Some w).

(** Calling a method [n] times in a row, collecting the returned values. *)
Fixpoint repeat_call {A} (n : nat) (m : M A) : M (list A) :=
  match n with
  | O => mret []
  | S n' => a ← m ; l ← repeat_call n' m ; mret (a :: l)
  end.

(** [range(n)]. *)
Definition range (n : Z) : list Z := seqZ 0 n.

End Vocab.

(** ** The [Tokenizer] class *)

(** A Python [str] is modelled by [string]; the separator is the ASCII
    space, so cutting at it is the same on bytes and on code points. *)
Module Tokenizer.

(** [s.split(sep)] of Python for a one-character separator: the text is
    cut at every occurrence of [sep]; [n] occurrences give [n + 1] pieces,
    empty ones included. *)
Fixpoint str_split (sep : ascii) (s : string) : list string :=
  match s with
  | EmptyString => [EmptyString]
  | String c s' =>
      if Ascii.eqb c sep then EmptyString :: str_split sep s'
      else match str_split sep s' with
           | [] => [String c EmptyString]
           | tok :: toks => String c tok :: toks
           end
  end.

(** [sep.join(parts)]. *)
Fixpoint str_join (sep : string) (parts : list string) : string :=
  match parts with
  | [] => EmptyString
  | [p] => p
  | p :: ps => (p ++ sep ++ str_join sep ps)%string
  end.

(** [c in s] for a character. *)
Fixpoint str_contains (c : ascii) (s : string) : bool :=
  match s with
  | EmptyString => false
  | String c' s' => Ascii.eqb c' c || str_contains c s'
  end.

(** [s.count(c)] for a character. *)
Fixpoint str_count (c : ascii) (s : string) : nat :=
  match s with
  | EmptyString => O
  | String c' s' => ((if Ascii.eqb c' c then 1 else 0) + str_count c s')%nat
  end.

(** A piece that does not contain the separator. *)
Definition no_sep (sep : ascii) (p : string) : Prop :=
  str_contains sep p = false.

(** The instance attributes: <<self.lowercase = lowercase>>. *)
Record t : Type := mk { lowercase : bool }.

Section Call.

(** Python's built-in [str.lower], which the notebooks use as it is. *)
Variable str_lower : string -> string.

(** <<
    def __call__(self, text):
        return [w.lower() if self.lowercase else w for w in text.split(' ')]
    >> *)
Definition call (self : t) (text : string) : list string :=
  (fun w => if lowercase self then str_lower w else w) <$> str_split " " text.

End Call.

(** Lowercasing on ASCII letters, an instance of [str.lower] on ASCII
    text, for running the tokenizer on examples. *)
Definition ascii_lower_char (c : ascii) : ascii :=
  let n := nat_of_ascii c in
  if ((65 <=? n) && (n <=? 90))%nat then ascii_of_nat (n + 32) else c.

Fixpoint ascii_lower (s : string) : string :=
  match s with
  | EmptyString => EmptyString
  | String c s' => String (ascii_lower_char c) (ascii_lower s')
  end.

(** Whitespace-delimited splitting as the specification words it (what
    [text.split()] without a separator does): the tokens are the maximal
    runs of non-whitespace characters. *)
Definition is_whitespace (c : ascii) : bool :=
  let n := nat_of_ascii c in
  ((9 <=? n) && (n <=? 13) || (28 <=? n) && (n <=? 32))%nat.

Fixpoint whitespace_fields (s : string) : list string :=
  match s with
  | EmptyString => [EmptyString]
  | String c s' =>
      if is_whitespace c then EmptyString :: whitespace_fields s'
      else match whitespace_fields s' with
           | [] => [String c EmptyString]
           | tok :: toks => String c tok :: toks
           end
  end.

Definition whitespace_split (s : string) : list string :=
  filter (fun tok => tok ≠ EmptyString) (whitespace_fields s).

Definition spec_call (str_lower : string -> string) (self : t) (text : string)
  : list string :=
  (fun w => if lowercase self then str_lower w else w) <$> whitespace_split text.

End Tokenizer.

(** ** Padding and collation *)

(** The part of the tensor library that [pad_tensor] and [pad_collate]
    touch. The dataset yields each text as a rank-1 [int64] tensor
    (<<torch.tensor([vocab.to_id(w) for w in toks])>>) and each label as a
    rank-0 [int64] tensor, so a sequence is a list of integers and a label
    an integer. *)
Module Torch.

Abbreviation tensor := (list Z).

(** [vec.shape], as the list [list(vec.shape)]. *)
Definition shape (vec : tensor) : list Z := [Z.of_nat (length vec)].

(** Python's [l[i]]: negative indices count from the end. *)
Definition index {A} (l : list A) (i : Z) : result A :=
  let n := Z.of_nat (length l) in
  let j := if i <? 0 then n + i else i in
  if (0 <=? j) && (j <? n) then
    match l !! Z.to_nat j with
    | Some x => Ok x
    | None => Raise IndexError
    end
  else Raise IndexError.

(** Python's [l[i] = x]. *)
Definition setitem {A} (l : list A) (i : Z) (x : A) : result (list A) :=
  let n := Z.of_nat (length l) in
  let j := if i <? 0 then n + i else i in
  if (0 <=? j) && (j <? n) then Ok (<[Z.to_nat j := x]> l)
  else Raise IndexError.

(** [vec.size(dim)]. *)
Definition size (vec : tensor) (dim : Z) : result Z := index (shape vec) dim.

(** [torch.zeros( *sz, dtype=torch.int64)] for a rank-1 size. *)
Definition zeros (sz : list Z) : result tensor :=
  match sz with
  | [n] => if n <? 0 then Raise RuntimeError else Ok (replicate (Z.to_nat n) 0)
  | _ => Raise RuntimeError
  end.

(** [torch.cat([a, b], dim=dim)] on rank-1 tensors. *)
Definition cat (a b : tensor) (dim : Z) : result tensor :=
  if (-1 <=? dim) && (dim <? 1) then Ok (a ++ b) else Raise IndexError.

(** [torch.stack(ts, dim=0)]: the rows of a rank-2 tensor; the list must
    be non-empty and all tensors of one size. *)
Definition stack (ts : list tensor) : result (list tensor) :=
  match ts with
  | [] => Raise RuntimeError
  | t0 :: rest =>
      if forallb (fun u => (length u =? length t0)%nat) rest then Ok ts
      else Raise RuntimeError
  end.

(** [torch.LongTensor(labels)] on a list of rank-0 [int64] tensors. *)
Definition LongTensor (labels : list Z) : tensor := labels.

(** Python's [max(iterable)]. *)
Definition max (l : list Z) : result Z :=
  match l with
  | [] => Raise ValueError
  | x :: l' => Ok (foldl Z.max x l')
  end.

End Torch.

(** <<
    def pad_tensor(vec, pad, dim):
        pad_size = list(vec.shape)
        pad_size[dim] = pad - vec.size(dim)
        return torch.cat([vec, torch.zeros( *pad_size, dtype=torch.int64)], dim=dim)
    >> *)
Definition pad_tensor (vec : Torch.tensor) (pad dim : Z) : result Torch.tensor :=
  let pad_size := Torch.shape vec in
  n ← Torch.size vec dim;
  pad_size ← Torch.setitem pad_size dim (pad - n);
  z ← Torch.zeros pad_size;
  Torch.cat vec z dim.

Module PadCollate.

(** <<self.dim = dim>> *)
Record t : Type := mk { dim : Z }.

(** One example of a batch: the token ids and the label. *)
Abbreviation example := (Torch.tensor * Z)%type.

(** <<
    def pad_collate(self, batch):
        max_len = max(map(lambda x: x[0].shape[self.dim], batch))
        batch = list(map(lambda b:
                    (pad_tensor(b[0], pad=max_len, dim=self.dim), b[1]), batch))
        xs = torch.stack(list(map(lambda x: x[0], batch)), dim=0)
        ys = torch.LongTensor(list(map(lambda x: x[1], batch)))
        return xs, ys
    >> *)
Definition pad_collate (self : t) (batch : list example)
  : result (list Torch.tensor * Torch.tensor) :=
  lens ← mapM (fun x : example => Torch.index (Torch.shape x.1) (dim self)) batch;
  max_len ← Torch.max lens;
  batch ← mapM (fun b : example =>
                  v ← pad_tensor b.1 max_len (dim self); mret (v, b.2)) batch;
  xs ← Torch.stack (fst <$> batch);
  let ys := Torch.LongTensor (snd <$> batch) in
  mret (xs, ys).

(** <<
    def __call__(self, batch):
        return self.pad_collate(batch)
    >> *)
Definition call (self : t) (batch : list example) := pad_collate self batch.

(** For a rank-1 tensor the sequence axis is dimension 0, which Python
    also lets one write -1. *)
Definition sequence_axis (d : Z) : Prop := d = 0 \/ d = -1.

(** A sequence followed by zeros up to length [m]. *)
Definition padded (m : nat) (seq : Torch.tensor) : Torch.tensor :=
  seq ++ replicate (m - length seq) 0.

(** [m] is the greatest sequence length in the batch. *)
Definition longest (batch : list example) (m : nat) : Prop :=
  (exists b, b ∈ batch /\ length b.1 = m)
  /\ (forall b, b ∈ batch -> (length b.1 <= m)%nat).

(** Every row has the greatest original length, starts with the original
    sequence and ends in zeros. *)
Definition padded_to_longest (batch : list example) (xs : list Torch.tensor)
  : Prop :=
  exists m, longest batch m
    /\ length xs = length batch
    /\ forall i b row, batch !! i = Some b -> xs !! i = Some row ->
         length row = m
         /\ take (length b.1) row = b.1
         /\ drop (length b.1) row = replicate (m - length b.1) 0.

(** Row [i] is sequence [i] followed by zeros up to the greatest length
    in the batch (which is also what [pad_tensor] makes of it), and label
    [i] is the label of pair [i]. *)
Definition order_and_labels_kept (self : t) (batch : list example)
    (xs : list Torch.tensor) (ys : Torch.tensor) : Prop :=
  exists m, longest batch m
    /\ length xs = length batch
    /\ length ys = length batch
    /\ forall i seq lbl, batch !! i = Some (seq, lbl) ->
         xs !! i = Some (seq ++ replicate (m - length seq) 0)
         /\ pad_tensor seq (Z.of_nat m) (dim self)
            = Ok (seq ++ replicate (m - length seq) 0)
         /\ ys !! i = Some lbl.

End PadCollate.

(** ** The script cells of the first notebook *)

(** The cells that build a vocabulary by hand, before the [Vocab] class is
    introduced, and the loops that fill a [Vocab]. *)
Module Cells.

#[local] Existing Instances Vocab.M_ret Vocab.M_bind.

(** [enumerate(l)]. *)
Definition enumerate {A} (l : list A) : list (Z * A) :=
  imap (fun i x => (Z.of_nat i, x)) l.

(** <<word_to_id = {word: i for i, word in enumerate(tokens)}>>: a later
    pair with the same key replaces the earlier one. *)
Definition word_to_id_of (tokens : list string) : gmap string Z :=
  foldl (fun d p => <[p.2 := p.1]> d) ∅ (enumerate tokens).

(** <<id_to_word = {i: word for i, word in enumerate(tokens)}>>. *)
Definition id_to_word_of (tokens : list string) : gmap Z string :=
  foldl (fun d p => <[p.1 := p.2]> d) ∅ (enumerate tokens).

(** [d[k]] outside any object: [KeyError] when the key is missing. *)
Definition getitem {K V} `{Countable K} (d : gmap K V) (k : K) : result V :=
  match d !! k with
  | Some x => Ok x
  | None => Raise KeyError
  end.

(** <<[word_to_id[w] for w in tokens]>>. *)
Definition numericalize (d : gmap string Z) (tokens : list string)
  : result (list Z) :=
  mapM (getitem d) tokens.

(** <<
    all_tokens = []
    for text in dataset['text']:
        all_tokens.extend(text.split(' '))
    >> *)
Definition all_tokens (texts : list string) : list string :=
  foldl (fun acc text => acc ++ Tokenizer.str_split " " text) [] texts.

(** <<set(all_tokens)>>. *)
Definition unique (tokens : list string) : gset string := list_to_set tokens.

(** A way in which iterating over <<set(tokens)>> may list its elements:
    each one once, in an order that Python leaves open. *)
Definition iterates (tokens order : list string) : Prop :=
  NoDup order /\ forall w, w ∈ order <-> w ∈ tokens.

(** A [for] loop over a list whose body is a method call on the
    vocabulary. *)
Fixpoint for_each {A} (xs : list A) (body : A -> Vocab.M unit)
  : Vocab.M unit :=
  match xs with
  | [] => mret tt
  | x :: xs' => body x;; for_each xs' body
  end.

(** <<
    full_vocab = Vocab()
    for text in dataset['text']:
        for w in text.split(' '):
            full_vocab.add_word(w)
    >> *)
Definition fill_full_vocab (texts : list string) : Vocab.M unit :=
  for_each texts (fun text =>
    for_each (Tokenizer.str_split " " text) (fun w =>
      Vocab.add_word w;; mret tt)).

Definition full_vocab (texts : list string) : result unit * Vocab.t :=
  fill_full_vocab texts (Vocab.new Vocab.default_unk false).

(** <<[full_vocab.to_id(w) for w in text]>> and
    <<[full_vocab.to_word(i) for i in ids]>>. *)
Definition to_ids (tokens : list string) : Vocab.M (list Z) :=
  mapM Vocab.to_id tokens.
Definition to_words (ids : list Z) : Vocab.M (list string) :=
  mapM Vocab.to_word ids.

End Cells.

(** ** The dataset pipeline of the second notebook *)

Module Pipeline.

#[local] Existing Instances Vocab.M_ret Vocab.M_bind.

(** The dict <<{'text': ..., 'label': ...}>> that the transforms pass on:
    always these two keys, with values whose type changes from step to
    step. *)
Record sample (T L : Type) : Type := mk_sample { text : T; label : L }.
Arguments mk_sample {T L} text label.
Arguments text {T L} s.
Arguments label {T L} s.

(** <<Tokenize>>: <<self.tokenizer = tokenizer>>. *)
Record Tokenize : Type := mk_Tokenize { tokenizer : Tokenizer.t }.

(** <<Numericalize>>: the two vocabularies it holds. *)
Record Numericalize : Type := mk_Numericalize {
  text_vocab : Vocab.t;
  label_vocab : Vocab.t
}.

(** <<transforms.Compose([Tokenize(...), Numericalize(...)])>>. *)
Record Compose : Type := mk_Compose {
  tokenize : Tokenize;
  numericalize : Numericalize
}.

(** <<CsvClassificationDataset>>: the rows (text, label) read from the
    file, and the optional transform. *)
Record CsvClassificationDataset : Type := mk_Dataset {
  df : list (string * string);
  transform : option Compose
}.

(** What <<__getitem__>> returns: the two strings of the row when there
    is no transform, else the token ids and the label id. *)
Inductive item : Type :=
| Raw (text label : string)
| Numbers (text : Torch.tensor) (label : Z).

(** <<text_tokenizer = Tokenizer(lowercase=True)>>. *)
Definition text_tokenizer : Tokenizer.t := Tokenizer.mk true.

Section WithLower.

(** Python's built-in [str.lower]. *)
Variable str_lower : string -> string.

(** <<
    def make_vocab(fields, is_label=False):
        vocab = Vocab(is_label=is_label)
        for t in fields:
            for w in text_tokenizer(t):
                vocab.add_word(w)
        return vocab
    >> *)
Definition make_vocab (fields : list string) (is_label : bool)
  : result Vocab.t :=
  let vocab := Vocab.new Vocab.default_unk is_label in
  match Cells.for_each fields (fun t =>
          Cells.for_each (Tokenizer.call str_lower text_tokenizer t) (fun w =>
            Vocab.add_word w;; mret tt)) vocab with
  | (Ok _, vocab') => Ok vocab'
  | (Raise e, _) => Raise e
  end.

(** The tokens that [text_tokenizer] yields on the fields, in the order
    in which [make_vocab] meets them. *)
Definition field_tokens (fields : list string) : list string :=
  mjoin (Tokenizer.call str_lower text_tokenizer <$> fields).

(** <<
    def __call__(self, sample):
        return {'text': self.tokenizer(sample['text']),
                'label': self.tokenizer(sample['label'])}
    >> *)
Definition Tokenize_call (self : Tokenize) (s : sample string string)
  : sample (list string) (list string) :=
  mk_sample (Tokenizer.call str_lower (tokenizer self) (text s))
            (Tokenizer.call str_lower (tokenizer self) (label s)).

(** <<
    def _numericalize(self, toks, vocab):
        return [vocab.to_id(w) for w in toks]
    >> *)
Definition _numericalize (toks : list string) : Vocab.M (list Z) :=
  mapM Vocab.to_id toks.

(** <<torch.tensor(ids)>> for a list of integers: the rank-1 tensor of
    these values. *)
Definition tensor_of_list (ids : list Z) : Torch.tensor := ids.

(** <<
    def __call__(self, sample):
        return {'text': torch.tensor(self._numericalize(sample['text'], self.text_vocab)),
                'label': torch.tensor(self._numericalize(sample['label'], self.label_vocab)[0])}
    >>
    The calls run on the two vocabularies that the object holds, the text
    first. *)
Definition Numericalize_call (self : Numericalize)
    (s : sample (list string) (list string))
  : result (sample Torch.tensor Z) * Numericalize :=
  match _numericalize (text s) (text_vocab self) with
  | (Raise e, tv) => (Raise e, mk_Numericalize tv (label_vocab self))
  | (Ok ids, tv) =>
      match _numericalize (label s) (label_vocab self) with
      | (Raise e, lv) => (Raise e, mk_Numericalize tv lv)
      | (Ok lids, lv) =>
          (l0 ← Torch.index lids 0;
           mret (mk_sample (tensor_of_list ids) l0),
           mk_Numericalize tv lv)
      end
  end.

(** <<Compose.__call__>>: the transforms one after the other. *)
Definition Compose_call (self : Compose) (s : sample string string)
  : result (sample Torch.tensor Z) * Compose :=
  let s1 := Tokenize_call (tokenize self) s in
  let '(r, nz) := Numericalize_call (numericalize self) s1 in
  (r, mk_Compose (tokenize self) nz).

(** <<
    def __len__(self):
        return len(self.df)
    >> *)
Definition Dataset_len (self : CsvClassificationDataset) : Z :=
  Z.of_nat (length (df self)).

(** <<
    def __getitem__(self, idx):
        example = {
            'text': self.df.iloc[idx]['text'],
            'label': self.df.iloc[idx]['label']}
        if self.transform:
            example = self.transform(example)
        return example['text'], example['label']
    >>
    [iloc] with an integer position follows Python's indexing: negative
    positions count from the end, others out of range raise [IndexError]. *)
Definition Dataset_getitem (self : CsvClassificationDataset) (idx : Z)
  : result item * CsvClassificationDataset :=
  match (t ← Torch.index (df self) idx;
         l ← Torch.index (df self) idx;
         mret (mk_sample t.1 l.2)) with
  | Raise e => (Raise e, self)
  | Ok example =>
      match transform self with
      | Some tr =>
          let '(r, tr') := Compose_call tr example in
          (example ← r; mret (Numbers (text example) (label example)),
           mk_Dataset (df self) (Some tr'))
      | None => (Ok (Raw (text example) (label example)), self)
      end
  end.

(** The dataset of the notebook: the vocabularies are made from the two
    columns of the file, and the transform tokenizes and numericalizes
    with them. *)
Definition imdb_dataset (rows : list (string * string))
  : result CsvClassificationDataset :=
  text_vocab ← make_vocab (fst <$> rows) false;
  label_vocab ← make_vocab (snd <$> rows) true;
  mret (mk_Dataset rows
          (Some (mk_Compose (mk_Tokenize text_tokenizer)
                            (mk_Numericalize text_vocab label_vocab)))).

End WithLower.

End Pipeline.

(** * Properties of the vocabulary *)

Section VocabFacts.
Import Vocab.

(** ** What each method computes *)

Lemma bind_ok {A B} (m : M A) (k : A -> M B) v a v' :
  m v = (Ok a, v') -> (m ≫= k) v = k a v'.
Proof. unfold mbind, M_bind. by intros ->. Qed.

Lemma contains_eq {K V} `{Countable K} (d : gmap K V) (k : K) :
  contains d k = match d !! k with Some _ => true | None => false end.
Proof.
  unfold contains. destruct (d !! k) eqn:E.
  - by apply bool_decide_eq_true_2.
  - apply bool_decide_eq_false_2, is_Some_None.
Qed.

Lemma add_word_eq w v :
  add_word w v =
  match word_to_id v !! w with
  | Some _ => (Ok (size v - 1), v)
  | None => (Ok (size v),
             mk (size v + 1) (<[w := size v]> (word_to_id v))
                (<[size v := w]> (id_to_word v)) (unk_symbol v) (unk_id v))
  end.
Proof.
  unfold add_word, mbind, M_bind, get, mret, M_ret.
  rewrite contains_eq. destruct v as [n d r us ui]; cbn.
  destruct (d !! w) as [i|]; cbn; [done|].
  do 2 f_equal. lia.
Qed.

Lemma to_id_eq w v :
  to_id w v =
  match word_to_id v !! w, unk_id v with
  | Some i, _ => (Ok i, v)
  | None, Some u => (Ok u, v)
  | None, None => (Raise (AttributeError "unk_id"), v)
  end.
Proof.
  unfold to_id, mbind, M_bind, get, getitem, get_attr.
  rewrite contains_eq. destruct (word_to_id v !! w) as [i|] eqn:E.
  - by rewrite E.
  - done.
Qed.

Lemma to_word_eq i v :
  to_word i v =
  match id_to_word v !! i, unk_symbol v with
  | Some w, _ => (Ok w, v)
  | None, Some u => (Ok u, v)
  | None, None => (Raise (AttributeError "unk_symbol"), v)
  end.
Proof.
  unfold to_word, mbind, M_bind, get, getitem, get_attr.
  rewrite contains_eq. destruct (id_to_word v !! i) as [w|] eqn:E.
  - by rewrite E.
  - done.
Qed.

Lemma new_eq unk is_label :
  new unk is_label =
  if is_label then mk 0 ∅ ∅ None None
  else mk 1 {[unk := 0]} {[0 := unk]} (Some unk) (Some 0).
Proof. by destruct is_label. Qed.

Lemma after_snoc unk is_label ws w :
  after unk is_label (ws ++ [w]) = (add_word w (after unk is_label ws)).2.
Proof. unfold after. by rewrite foldl_snoc. Qed.

Lemma history_snoc unk is_label ws w :
  history unk is_label (ws ++ [w]) = history unk is_label ws ++ [w].
Proof. unfold history. by rewrite app_assoc. Qed.

(** Any sequence of method calls on a fresh instance leaves the instance
    that its [add_word] calls alone would: the vocabularies [after ...]
    are all the vocabularies there are. *)
Lemma invoke_all_after unk is_label cs :
  foldl (fun v c => invoke c v) (new unk is_label) cs
  = after unk is_label (added cs).
Proof.
  induction cs as [|c cs IH] using rev_ind; [done|].
  rewrite foldl_snoc, IH. unfold added. rewrite omap_app. cbn.
  fold (added cs). destruct c as [w|w|i|]; cbn;
    rewrite ?app_nil_r; set (v := after unk is_label (added cs)).
  - unfold v. by rewrite after_snoc.
  - rewrite to_id_eq. by destruct (word_to_id v !! w), (unk_id v).
  - rewrite to_word_eq. by destruct (id_to_word v !! i), (unk_symbol v).
  - done.
Qed.

(** ** First-seen order *)

Lemma elem_of_first_seen w ws : w ∈ first_seen ws <-> w ∈ ws.
Proof.
  induction ws as [|a ws IH]; cbn; [done|].
  rewrite !elem_of_cons, list_elem_of_filter, IH.
  destruct (decide (w = a)); tauto.
Qed.

Lemma NoDup_first_seen ws : NoDup (first_seen ws).
Proof.
  induction ws as [|a ws IH]; cbn; [constructor|].
  apply NoDup_cons; split.
  - rewrite list_elem_of_filter. by intros [Hne _].
  - by apply NoDup_filter.
Qed.

Lemma first_seen_snoc ws w :
  first_seen (ws ++ [w]) =
  if decide (w ∈ ws) then first_seen ws else first_seen ws ++ [w].
Proof.
  induction ws as [|a ws IH]; cbn.
  - by rewrite decide_False by apply not_elem_of_nil.
  - rewrite IH. destruct (decide (w ∈ ws)) as [Hin|Hnin].
    + by rewrite decide_True by (by right).
    + rewrite filter_app. destruct (decide (w = a)) as [->|Hne].
      * rewrite decide_True by left.
        rewrite filter_cons_False by (by intros Hne).
        by rewrite filter_nil, app_nil_r.
      * rewrite decide_False by (rewrite elem_of_cons; tauto).
        by rewrite filter_cons_True by done.
Qed.

(** ** The numbering invariant *)

Lemma numbered_present order v w :
  numbered order v -> (is_Some (word_to_id v !! w) <-> w ∈ order).
Proof.
  intros (_ & Hfwd & _). rewrite list_elem_of_lookup. split.
  - intros [i Hi]. apply Hfwd in Hi as [_ Hi]. eauto.
  - intros [n Hn]. exists (Z.of_nat n). apply Hfwd.
    rewrite Nat2Z.id. split; [lia|done].
Qed.

Lemma add_word_present w v :
  is_Some (word_to_id v !! w) -> add_word w v = (Ok (size v - 1), v).
Proof. intros [i Hi]. by rewrite add_word_eq, Hi. Qed.

Lemma add_word_absent w v :
  word_to_id v !! w = None ->
  add_word w v =
  (Ok (size v),
   mk (size v + 1) (<[w := size v]> (word_to_id v))
      (<[size v := w]> (id_to_word v)) (unk_symbol v) (unk_id v)).
Proof. intros Hw. by rewrite add_word_eq, Hw. Qed.

Lemma numbered_add_fresh order v w :
  numbered order v -> w ∉ order -> numbered (order ++ [w]) (add_word w v).2.
Proof.
  intros Hnum Hw.
  assert (word_to_id v !! w = None) as Hnone.
  { apply eq_None_not_Some. by rewrite (numbered_present order). }
  destruct Hnum as (Hsz & Hfwd & Hbwd).
  rewrite add_word_absent by done. unfold numbered; cbn.
  split; [rewrite length_app; cbn; lia|]. split.
  - intros w' i. destruct (decide (w = w')) as [<-|Hne].
    + rewrite lookup_insert_eq, lookup_snoc_Some. split.
      * intros [= <-]. split; [lia|]. right. by rewrite Hsz, Nat2Z.id.
      * intros [Hi [[_ Hl]|[Hl _]]]; [|f_equal; lia].
        exfalso. apply Hw. by eapply list_elem_of_lookup_2.
    + rewrite lookup_insert_ne, lookup_snoc_Some, Hfwd by done. split.
      * intros [Hi Hl]. split; [done|]. left. split; [|done].
        by eapply lookup_lt_Some.
      * intros [Hi [[_ Hl]|[_ Hl]]]; done.
  - intros i w'. destruct (decide (size v = i)) as [<-|Hne].
    + rewrite lookup_insert_eq, lookup_snoc_Some, Hsz, Nat2Z.id. split.
      * intros [= <-]. split; [lia|]. by right.
      * intros [_ [[Hlt _]|[_ ->]]]; [lia|done].
    + rewrite lookup_insert_ne, lookup_snoc_Some, Hbwd by done. split.
      * intros [Hi Hl]. split; [done|]. left. split; [|done].
        by eapply lookup_lt_Some.
      * intros [Hi [[_ Hl]|[Hl _]]]; [done|lia].
Qed.

Lemma numbered_new unk is_label :
  numbered (first_seen (history unk is_label [])) (new unk is_label).
Proof.
  rewrite new_eq. unfold numbered. destruct is_label; cbn.
  - split; [done|]. split; intros; split; try done; by intros [_ ?].
  - split; [done|]. split.
    + intros w i. rewrite lookup_singleton_Some, list_lookup_singleton_Some.
      split; [intros [-> <-]; cbn; auto with lia|].
      intros [Hi [Hl ->]]. split; [done|lia].
    + intros i w. rewrite lookup_singleton_Some, list_lookup_singleton_Some.
      split; [intros [<- ->]; cbn; auto with lia|].
      intros [Hi [Hl ->]]. split; [lia|done].
Qed.

Lemma after_numbered unk is_label ws :
  numbered (first_seen (history unk is_label ws)) (after unk is_label ws).
Proof.
  induction ws as [|w ws IH] using rev_ind.
  - apply numbered_new.
  - rewrite history_snoc, first_seen_snoc, after_snoc.
    destruct (decide (w ∈ history unk is_label ws)) as [Hin|Hnin].
    + rewrite add_word_present; [done|].
      by rewrite (numbered_present _ _ _ IH), elem_of_first_seen.
    + apply numbered_add_fresh; [done|]. by rewrite elem_of_first_seen.
Qed.

Lemma add_word_unk w v :
  unk_symbol (add_word w v).2 = unk_symbol v /\
  unk_id (add_word w v).2 = unk_id v.
Proof. rewrite add_word_eq. by destruct (word_to_id v !! w). Qed.

Lemma after_unk unk is_label ws :
  unk_symbol (after unk is_label ws) = (if is_label then None else Some unk) /\
  unk_id (after unk is_label ws) = (if is_label then None else Some 0).
Proof.
  induction ws as [|w ws IH] using rev_ind.
  - unfold after; cbn. rewrite new_eq. by destruct is_label.
  - rewrite after_snoc.
    destruct (add_word_unk w (after unk is_label ws)) as [-> ->]. done.
Qed.

Lemma numbered_inverse order v w i :
  numbered order v ->
  word_to_id v !! w = Some i <-> id_to_word v !! i = Some w.
Proof. intros (_ & Hfwd & Hbwd). by rewrite Hfwd, Hbwd. Qed.

Lemma numbered_ids order v i :
  numbered order v -> is_Some (id_to_word v !! i) <-> 0 <= i < size v.
Proof.
  intros (Hsz & _ & Hbwd). split.
  - intros [w Hw]. apply Hbwd in Hw as [Hi Hw].
    apply lookup_lt_Some in Hw. lia.
  - intros Hi. destruct (lookup_lt_is_Some_2 order (Z.to_nat i)) as [w Hw];
      [lia|]. exists w. apply Hbwd. split; [lia|done].
Qed.

Lemma after_map_sizes unk is_label ws :
  let order := first_seen (history unk is_label ws) in
  base.size (word_to_id (after unk is_label ws)) = length order /\
  base.size (id_to_word (after unk is_label ws)) = length order.
Proof.
  induction ws as [|w ws IH] using rev_ind; cbn zeta.
  - unfold after; cbn. rewrite new_eq. destruct is_label; cbn; [done|].
    by rewrite !map_size_singleton.
  - cbn zeta in IH. rewrite history_snoc, first_seen_snoc, after_snoc.
    pose proof (after_numbered unk is_label ws) as Hnum.
    destruct (decide (w ∈ history unk is_label ws)) as [Hin|Hnin].
    + rewrite add_word_present; [done|].
      by rewrite (numbered_present _ _ _ Hnum), elem_of_first_seen.
    + assert (word_to_id (after unk is_label ws) !! w = None) as Hnone.
      { apply eq_None_not_Some.
        by rewrite (numbered_present _ _ _ Hnum), elem_of_first_seen. }
      assert (id_to_word (after unk is_label ws)
                !! size (after unk is_label ws) = None) as Hnone'.
      { apply eq_None_not_Some. rewrite (numbered_ids _ _ _ Hnum). lia. }
      rewrite add_word_absent by done. cbn.
      rewrite !map_size_insert_None, length_app by done. cbn. lia.
Qed.

(** ** Adding a word *)

(** A token that is absent is stored under the next identifier, which
    is also the value returned. *)
Lemma add_word_fresh_next_id w v :
  word_to_id v !! w = None ->
  exists v', add_word w v = (Ok (size v), v')
    /\ size v' = size v + 1
    /\ word_to_id v' !! w = Some (size v)
    /\ id_to_word v' !! size v = Some w.
Proof.
  intros Hw. eexists. rewrite add_word_absent by done.
  split; [done|]. cbn. by rewrite !lookup_insert_eq.
Qed.

(** Re-adding a token returns [size - 1], which is the token's own
    identifier exactly when it is the newest entry. *)
Lemma add_word_again_right_iff_newest unk is_label ws w :
  let v := after unk is_label ws in
  w ∈ history unk is_label ws ->
  ((add_word w v).1 = (to_id w v).1 <->
   last (first_seen (history unk is_label ws)) = Some w).
Proof.
  intros v Hin. pose proof (after_numbered unk is_label ws) as Hnum.
  fold v in Hnum.
  assert (is_Some (word_to_id v !! w)) as [i Hi].
  { by rewrite (numbered_present _ _ _ Hnum), elem_of_first_seen. }
  rewrite add_word_present, to_id_eq, Hi by done. cbn.
  destruct Hnum as (Hsz & Hfwd & _). apply Hfwd in Hi as [Hi0 Hi].
  rewrite last_lookup. split.
  - intros [= Heq]. rewrite <- Hi. f_equal. lia.
  - intros Hl. f_equal.
    pose proof (NoDup_first_seen (history unk is_label ws)) as Hnd.
    pose proof (NoDup_lookup _ _ _ _ Hnd Hi Hl).
    apply lookup_lt_Some in Hi. lia.
Qed.

(** C1. The specification has [add_word(w)] return the identifier of
    [w], also when [w] is already present. The code ends in
    <<return self.size - 1>> on every path. For an absent token that is
    the identifier just assigned ([add_word_fresh_next_id]), and for a
    present token the vocabulary is left as it was ([add_word_present]);
    but the value returned for a present token is the identifier of the
    newest entry, not the token's own: after <<Vocab()>>,
    <<add_word('a')>>, <<add_word('b')>>, the call <<add_word('a')>>
    returns 2 although <<to_id('a')>> is 1 and identifier 2 belongs to
    <<'b'>>. *)
Theorem add_word_again_returns_newest_id :
  let v := after default_unk false ["a"; "b"]%string in
  add_word "a" v = (Ok 2, v)
  /\ to_id "a" v = (Ok 1, v)
  /\ to_word 2 v = (Ok "b"%string, v).
Proof. vm_compute. auto. Qed.

(** ** Dense identifiers in first-seen order *)

(** C2. After the constructor and any sequence of [add_word] calls the
    counter equals the number of distinct tokens added; the token with
    identifier [i] is the [i]-th distinct token in order of first
    appearance (the unknown token, added by the constructor, comes first
    and has identifier 0 when it is enabled); the identifiers in use are
    exactly [0 .. size-1]; the two dictionaries are inverse to each other
    and each has [size] entries. *)
Theorem ids_dense_in_first_seen_order unk is_label ws :
  let v := after unk is_label ws in
  let order := first_seen (history unk is_label ws) in
  size v = Z.of_nat (length order)
  /\ (forall w i, word_to_id v !! w = Some i <->
                  0 <= i /\ order !! Z.to_nat i = Some w)
  /\ (forall i, (exists w, word_to_id v !! w = Some i) <-> 0 <= i < size v)
  /\ (forall w i, word_to_id v !! w = Some i <-> id_to_word v !! i = Some w)
  /\ Z.of_nat (base.size (word_to_id v)) = size v
  /\ Z.of_nat (base.size (id_to_word v)) = size v
  /\ word_to_id (after unk false ws) !! unk = Some 0
  /\ id_to_word (after unk false ws) !! 0 = Some unk.
Proof.
  intros v order. pose proof (after_numbered unk is_label ws) as Hnum.
  fold v order in Hnum.
  destruct (after_map_sizes unk is_label ws) as [Hs1 Hs2].
  cbn zeta in Hs1, Hs2. fold v order in Hs1, Hs2.
  pose proof Hnum as (Hsz & Hfwd & Hbwd).
  split; [done|]. split; [done|]. split.
  { intros i. rewrite <- (numbered_ids _ _ _ Hnum). unfold is_Some.
    by setoid_rewrite (numbered_inverse order v). }
  split; [intros; by eapply numbered_inverse|].
  split; [by rewrite Hs1|]. split; [by rewrite Hs2|].
  pose proof (after_numbered unk false ws) as (_ & Hfwd' & Hbwd').
  split; [apply Hfwd'|apply Hbwd']; done.
Qed.

(** ** Looking tokens and identifiers up *)

Lemma after_present unk is_label ws w :
  is_Some (word_to_id (after unk is_label ws) !! w) <->
  w ∈ history unk is_label ws.
Proof.
  by rewrite (numbered_present _ _ _ (after_numbered unk is_label ws)),
    elem_of_first_seen.
Qed.

(** C3. On the vocabulary built by the constructor and any sequence of
    [add_word] calls, [to_id(w)] returns the identifier stored for [w]
    when [w] has been added; for a token never added it returns the
    unknown token's identifier, 0, when the vocabulary was built with
    unknown-token support; and on a label vocabulary ([is_label=True]) it
    fails: the attribute [unk_id] was never assigned and its lookup
    raises. The vocabulary is left as it was in each case. *)
Theorem to_id_present_unknown_or_error unk is_label ws w :
  let v := after unk is_label ws in
  (w ∈ history unk is_label ws ->
     exists i, word_to_id v !! w = Some i /\ to_id w v = (Ok i, v))
  /\ (w ∉ history unk is_label ws -> is_label = false ->
       to_id w v = (Ok 0, v) /\ word_to_id v !! unk = Some 0)
  /\ (w ∉ history unk is_label ws -> is_label = true ->
       to_id w v = (Raise (AttributeError "unk_id"), v)).
Proof.
  intros v. destruct (after_unk unk is_label ws) as [_ Hid]. fold v in Hid.
  split; [|split].
  - intros Hin. apply after_present in Hin as [i Hi]. fold v in Hi.
    exists i. by rewrite to_id_eq, Hi.
  - intros Hnin ->. rewrite <- after_present, <- eq_None_not_Some in Hnin.
    fold v in Hnin. rewrite to_id_eq, Hnin, Hid. split; [done|].
    pose proof (after_numbered unk false ws) as (_ & Hfwd & _). by apply Hfwd.
  - intros Hnin ->. rewrite <- after_present, <- eq_None_not_Some in Hnin.
    fold v in Hnin. by rewrite to_id_eq, Hnin, Hid.
Qed.

(** The three cases on the vocabularies of the two worked scenarios. *)
Lemma to_id_present_unknown_or_error_witness :
  (exists i,
      word_to_id (after default_unk false ["a"; "b"; "a"; "c"]%string)
        !! "b"%string = Some i /\
      to_id "b" (after default_unk false ["a"; "b"; "a"; "c"]%string)
      = (Ok i, after default_unk false ["a"; "b"; "a"; "c"]%string))
  /\ to_id "z" (after default_unk false ["a"; "b"; "a"; "c"]%string)
     = (Ok 0, after default_unk false ["a"; "b"; "a"; "c"]%string)
  /\ to_id "neutral" (after default_unk true ["pos"; "neg"; "pos"]%string)
     = (Raise (AttributeError "unk_id"),
        after default_unk true ["pos"; "neg"; "pos"]%string).
Proof.
  split; [|split].
  - apply (to_id_present_unknown_or_error
             default_unk false ["a"; "b"; "a"; "c"]%string "b"%string).
    apply (bool_decide_unpack _). vm_compute. exact I.
  - apply (to_id_present_unknown_or_error
             default_unk false ["a"; "b"; "a"; "c"]%string "z"%string).
    + apply (bool_decide_unpack _). vm_compute. exact I.
    + reflexivity.
  - apply (to_id_present_unknown_or_error
             default_unk true ["pos"; "neg"; "pos"]%string "neutral"%string).
    + apply (bool_decide_unpack _). vm_compute. exact I.
    + reflexivity.
Defined.

Lemma repeat_call_fixed {A} (m : M A) (a : A) v n :
  m v = (Ok a, v) -> repeat_call n m v = (Ok (replicate n a), v).
Proof.
  intros Hm. induction n as [|n IH]; cbn; [done|].
  rewrite (bind_ok _ _ _ _ _ Hm). by rewrite (bind_ok _ _ _ _ _ IH).
Qed.

Lemma after_keeps_id unk is_label ws more w i :
  word_to_id (after unk is_label ws) !! w = Some i ->
  word_to_id (after unk is_label (ws ++ more)) !! w = Some i.
Proof.
  intros Hi. induction more as [|x more IH] using rev_ind.
  - by rewrite app_nil_r.
  - rewrite app_assoc, after_snoc, add_word_eq.
    destruct (word_to_id (after unk is_label (ws ++ more)) !! x) eqn:Hx;
      cbn; [done|].
    rewrite lookup_insert_ne; [done|]. intros ->. congruence.
Qed.

(** C4. For a token [t] that has been added, [to_id(t)] leaves the
    vocabulary untouched and so gives one and the same identifier [i]
    however many times it is called, also after further tokens have been
    added, and [to_word(to_id(t))] is [t]. With unknown-token support,
    [to_word] of an identifier that is not in the vocabulary is the
    unknown-token string. *)
Theorem to_id_stable_and_to_word_inverts unk is_label ws :
  let v := after unk is_label ws in
  (forall t, t ∈ history unk is_label ws ->
     exists i,
       (forall n, repeat_call n (to_id t) v = (Ok (replicate n i), v))
       /\ (forall more,
             to_id t (after unk is_label (ws ++ more))
             = (Ok i, after unk is_label (ws ++ more)))
       /\ (i' ← to_id t; to_word i') v = (Ok t, v))
  /\ (forall j, id_to_word (after unk false ws) !! j = None ->
        to_word j (after unk false ws) = (Ok unk, after unk false ws)).
Proof.
  intros v. split.
  - intros t Hin. apply after_present in Hin as [i Hi]. fold v in Hi.
    exists i. split; [|split].
    + intros n. apply repeat_call_fixed. by rewrite to_id_eq, Hi.
    + intros more. by rewrite to_id_eq, (after_keeps_id _ _ _ _ _ _ Hi).
    + rewrite (bind_ok _ _ v i v) by (by rewrite to_id_eq, Hi).
      rewrite to_word_eq.
      apply (numbered_inverse _ _ _ _ (after_numbered unk is_label ws)) in Hi.
      fold v in Hi. by rewrite Hi.
  - intros j Hj. destruct (after_unk unk false ws) as [Hsym _].
    by rewrite to_word_eq, Hj, Hsym.
Qed.

(** Token <<'b'>> and the unused identifier 7 after <<add_word('a')>>,
    <<add_word('b')>>. *)
Lemma to_id_stable_and_to_word_inverts_witness :
  (exists i,
     (forall n,
        repeat_call n (to_id "b") (after default_unk false ["a"; "b"]%string)
        = (Ok (replicate n i), after default_unk false ["a"; "b"]%string))
     /\ (forall more,
           to_id "b" (after default_unk false (["a"; "b"]%string ++ more))
           = (Ok i, after default_unk false (["a"; "b"]%string ++ more)))
     /\ (i' ← to_id "b"; to_word i')
          (after default_unk false ["a"; "b"]%string)
        = (Ok "b"%string, after default_unk false ["a"; "b"]%string))
  /\ to_word 7 (after default_unk false ["a"; "b"]%string)
     = (Ok default_unk, after default_unk false ["a"; "b"]%string).
Proof.
  split.
  - apply (to_id_stable_and_to_word_inverts
             default_unk false ["a"; "b"]%string).
    apply (bool_decide_unpack _). vm_compute. exact I.
  - apply (to_id_stable_and_to_word_inverts
             default_unk false ["a"; "b"]%string).
    vm_compute. reflexivity.
Defined.

Lemma mapM_fixed {A B} (f : A -> M B) v xs ys :
  Forall2 (fun x y => f x v = (Ok y, v)) xs ys ->
  mapM f xs v = (Ok ys, v).
Proof.
  induction 1 as [|x y xs ys Hxy _ IH]; cbn; [done|].
  rewrite (bind_ok _ _ _ _ _ Hxy). by rewrite (bind_ok _ _ _ _ _ IH).
Qed.

(** C5. With [N = size()], the tokens [to_word(0)], ..., [to_word(N-1)]
    are all found; they are the distinct tokens that were added (the
    unknown token among them when it is enabled), each once, so as a set
    they are the set of inserted tokens, which has [N] elements. *)
Theorem to_word_over_range_recovers_tokens unk is_label ws :
  let v := after unk is_label ws in
  exists toks,
    mapM to_word (range (size v)) v = (Ok toks, v)
    /\ (list_to_set toks : gset string)
       = list_to_set (history unk is_label ws)
    /\ NoDup toks
    /\ Z.of_nat (base.size (list_to_set (history unk is_label ws)
                              : gset string)) = size v.
Proof.
  intros v. pose proof (after_numbered unk is_label ws) as Hnum.
  fold v in Hnum. destruct Hnum as (Hsz & _ & Hbwd).
  pose proof (NoDup_first_seen (history unk is_label ws)) as Hnd.
  assert ((list_to_set (first_seen (history unk is_label ws)) : gset string)
          = list_to_set (history unk is_label ws)) as Hset.
  { apply set_eq. intros x.
    by rewrite !elem_of_list_to_set, elem_of_first_seen. }
  exists (first_seen (history unk is_label ws)).
  split; [|split; [done|split; [done|]]].
  - apply mapM_fixed, Forall2_same_length_lookup. unfold range. split.
    + rewrite length_seqZ. lia.
    + intros n i w Hi Hw. apply lookup_seqZ in Hi as [-> _].
      rewrite to_word_eq.
      assert (id_to_word v !! (0 + Z.of_nat n) = Some w) as ->; [|done].
      apply Hbwd. split; [lia|]. by rewrite Z.add_0_l, Nat2Z.id.
  - by rewrite <- Hset, size_list_to_set, Hsz.
Qed.

(** ** State left alone *)

(** C10. The queries [to_id], [to_word] and [__len__] return without
    writing to the instance, whether they return a value or raise, and
    [add_word] on a token that is already present writes nothing either:
    the whole instance, hence [word_to_id], [id_to_word] and [size], is
    the same after the call. *)
Theorem queries_and_readd_keep_state v w i :
  (to_id w v).2 = v
  /\ (to_word i v).2 = v
  /\ (len v).2 = v
  /\ (is_Some (word_to_id v !! w) -> (add_word w v).2 = v).
Proof.
  repeat split.
  - rewrite to_id_eq. by destruct (word_to_id v !! w), (unk_id v).
  - rewrite to_word_eq. by destruct (id_to_word v !! i), (unk_symbol v).
  - intros Hw. by rewrite add_word_present.
Qed.

(** Re-adding <<'a'>>, which is present. *)
Lemma queries_and_readd_keep_state_witness :
  (add_word "a" (after default_unk false ["a"; "b"]%string)).2
  = after default_unk false ["a"; "b"]%string.
Proof.
  apply (queries_and_readd_keep_state
           (after default_unk false ["a"; "b"]%string) "a"%string 0).
  exists 1. vm_compute. reflexivity.
Defined.

End VocabFacts.

(** * Properties of the tokenizer *)

Section TokenizerFacts.
Import Tokenizer.

Lemma str_split_nonempty sep s : str_split sep s <> [].
Proof.
  destruct s as [|c s]; cbn; [done|].
  destruct (Ascii.eqb c sep); [done|]. by destruct (str_split sep s).
Qed.

Lemma str_join_cons_char sep c tok toks :
  str_join sep (String c tok :: toks) = String c (str_join sep (tok :: toks)).
Proof. by destruct toks. Qed.

Lemma str_join_split sep s : str_join (String sep "") (str_split sep s) = s.
Proof.
  induction s as [|c s IH]; cbn; [done|].
  destruct (Ascii.eqb_spec c sep) as [->|Hne].
  - pose proof (str_split_nonempty sep s) as Hs.
    destruct (str_split sep s) as [|tok toks]; [done|]. cbn in *.
    by rewrite IH.
  - pose proof (str_split_nonempty sep s) as Hs.
    destruct (str_split sep s) as [|tok toks]; [done|].
    by rewrite str_join_cons_char, IH.
Qed.

Lemma str_split_no_sep sep s : Forall (no_sep sep) (str_split sep s).
Proof.
  induction s as [|c s IH]; cbn; [by constructor|].
  destruct (Ascii.eqb c sep) eqn:Hc; [by constructor|].
  destruct (str_split sep s) as [|tok toks]; cbn.
  - constructor; [|done]. unfold no_sep; cbn. by rewrite Hc.
  - inversion_clear IH as [|? ? Htok Htoks]. constructor; [|done].
    unfold no_sep in *; cbn. by rewrite Hc.
Qed.

Lemma length_str_split sep s :
  length (str_split sep s) = S (str_count sep s).
Proof.
  induction s as [|c s IH]; cbn; [done|].
  destruct (Ascii.eqb c sep); cbn; [by rewrite IH|].
  pose proof (str_split_nonempty sep s) as Hs.
  destruct (str_split sep s) as [|tok toks]; [done|]. by rewrite <- IH.
Qed.

Lemma str_split_piece sep p :
  str_contains sep p = false -> str_split sep p = [p].
Proof.
  induction p as [|c p IH]; cbn; [done|].
  intros [Hc Hp]%orb_false_elim. by rewrite Hc, IH.
Qed.

Lemma str_split_piece_then sep p s :
  str_contains sep p = false ->
  str_split sep (p ++ String sep s)%string = p :: str_split sep s.
Proof.
  induction p as [|c p IH]; cbn.
  - intros _. change (str_split sep (String sep s) = "" :: str_split sep s).
    cbn. by rewrite Ascii.eqb_refl.
  - intros [Hc Hp]%orb_false_elim.
    change (str_split sep (String c (p ++ String sep s))
            = String c p :: str_split sep s).
    cbn. by rewrite Hc, IH.
Qed.

Lemma str_join_cons_cons sep p q ps :
  str_join (String sep "") (p :: q :: ps)
  = (p ++ String sep (str_join (String sep "") (q :: ps)))%string.
Proof. reflexivity. Qed.

Lemma str_split_join sep parts :
  parts <> [] -> Forall (no_sep sep) parts ->
  str_split sep (str_join (String sep "") parts) = parts.
Proof.
  intros Hne Hall. induction Hall as [|p ps Hp Hps IH]; [done|].
  destruct ps as [|q ps].
  - by apply str_split_piece.
  - rewrite str_join_cons_cons, str_split_piece_then by done.
    f_equal. by apply IH.
Qed.

(** C9, for the splitting that the code performs. The tokenizer cuts the
    text at every occurrence of the single space character and nowhere
    else: the pieces,
    joined back with one space between neighbours, give the text; no piece
    has a space in it; [n] spaces give [n + 1] pieces (so two spaces in a
    row give an empty token, and tabs and newlines stay inside tokens);
    and there is only one such list of pieces. Each piece is passed through
    [str.lower] exactly when the flag is set. The result depends on the
    text and the flag alone: two tokenizers with the same flag agree. *)
Theorem tokenizer_cuts_at_every_space
    (str_lower : string -> string) (self : t) (text : string) :
  exists parts,
    call str_lower self text
    = (if lowercase self then str_lower <$> parts else parts)
    /\ str_join " " parts = text
    /\ Forall (no_sep " "%char) parts
    /\ length parts = S (str_count " " text)
    /\ (forall parts', parts' <> [] -> Forall (no_sep " "%char) parts' ->
                       str_join " " parts' = text -> parts' = parts)
    /\ (forall other, lowercase other = lowercase self ->
                      call str_lower other text = call str_lower self text).
Proof.
  exists (str_split " " text). split.
  { unfold call. destruct (lowercase self); [done|]. apply list_fmap_id. }
  split; [apply str_join_split|]. split; [apply str_split_no_sep|].
  split; [apply length_str_split|]. split.
  - intros parts' Hne Hall <-. symmetry. by apply str_split_join.
  - intros other Hflag. unfold call. by rewrite Hflag.
Qed.

(** C9 read as splitting at whitespace does not hold: that gives the
    maximal runs of non-whitespace characters, whereas the tokenizer keeps
    a tab inside a token and produces an empty token between two adjacent
    spaces. *)
Lemma tokenizer_is_not_whitespace_split :
  let tab := String "a" (String "009" (String "b" "")) in
  call ascii_lower (mk false) tab = [tab]
  /\ spec_call ascii_lower (mk false) tab = ["a"; "b"]%string
  /\ call ascii_lower (mk false) tab <> spec_call ascii_lower (mk false) tab
  /\ call ascii_lower (mk false) "a  b" = ["a"; ""; "b"]%string
  /\ spec_call ascii_lower (mk false) "a  b" = ["a"; "b"]%string.
Proof. vm_compute. repeat split; discriminate. Qed.

End TokenizerFacts.

(** * Properties of padding and collation *)

Section CollateFacts.
Import PadCollate.

Lemma result_bind_ok {A B} (r : result A) (k : A -> result B) a :
  r = Ok a -> (r ≫= k) = k a.
Proof. by intros ->. Qed.

Lemma mapM_result_ok {A B} (f : A -> result B) (g : A -> B) xs :
  (forall x, x ∈ xs -> f x = Ok (g x)) -> mapM f xs = Ok (g <$> xs).
Proof.
  induction xs as [|x xs IH]; intros Hf; cbn; [done|].
  rewrite (result_bind_ok _ _ (g x)) by (apply Hf; left).
  rewrite (result_bind_ok _ _ (g <$> xs)); [done|].
  apply IH. intros y Hy. apply Hf. by right.
Qed.

Lemma index_shape vec d :
  sequence_axis d -> Torch.index (Torch.shape vec) d = Ok (Z.of_nat (length vec)).
Proof. by intros [-> | ->]. Qed.

Lemma setitem_shape vec d x :
  sequence_axis d -> Torch.setitem (Torch.shape vec) d x = Ok [x].
Proof. by intros [-> | ->]. Qed.

Lemma cat_axis a b d : sequence_axis d -> Torch.cat a b d = Ok (a ++ b).
Proof. by intros [-> | ->]. Qed.

Lemma pad_tensor_eq vec (m : nat) d :
  sequence_axis d -> (length vec <= m)%nat ->
  pad_tensor vec (Z.of_nat m) d = Ok (padded m vec).
Proof.
  intros Hd Hm. unfold pad_tensor, Torch.size.
  rewrite (result_bind_ok _ _ _ (index_shape vec d Hd)).
  rewrite (result_bind_ok _ _ _ (setitem_shape vec d _ Hd)).
  unfold Torch.zeros. rewrite (proj2 (Z.ltb_ge _ _)) by lia. cbn.
  rewrite cat_axis by done. unfold padded. do 3 f_equal. lia.
Qed.

Lemma foldl_max_upper l : forall x y,
  y ∈ x :: l -> y <= foldl Z.max x l.
Proof.
  induction l as [|z l IH]; intros x y; cbn.
  - rewrite list_elem_of_singleton. lia.
  - rewrite !elem_of_cons. intros [->|[->|Hy]].
    + etrans; [|apply IH; left]. lia.
    + etrans; [|apply IH; left]. lia.
    + apply IH. by right.
Qed.

Lemma foldl_max_attained l : forall x, foldl Z.max x l ∈ x :: l.
Proof.
  induction l as [|z l IH]; intros x; cbn; [left|].
  specialize (IH (Z.max x z)). apply elem_of_cons in IH as [-> | IH].
  - destruct (Z.max_spec x z) as [[_ ->]|[_ ->]]; [right; left|left].
  - right. by right.
Qed.

Lemma stack_same_length (m : nat) ts :
  ts <> [] -> (forall u, u ∈ ts -> length u = m) -> Torch.stack ts = Ok ts.
Proof.
  intros Hne Hlen. destruct ts as [|t0 rest]; [done|]. cbn.
  rewrite (proj2 (forallb_forall _ _)); [done|].
  intros u Hu%list_elem_of_In. apply Nat.eqb_eq.
  rewrite (Hlen u), (Hlen t0); [done|left|by right].
Qed.

(** The batch that [pad_collate] returns, with the maximum [m] of the
    sequence lengths. *)
Lemma pad_collate_eq self batch :
  sequence_axis (dim self) -> batch <> [] ->
  exists m : nat,
    (exists b, b ∈ batch /\ length b.1 = m)
    /\ (forall b, b ∈ batch -> (length b.1 <= m)%nat)
    /\ pad_collate self batch
       = Ok ((fun b : example => padded m b.1) <$> batch, snd <$> batch).
Proof.
  intros Hd Hne. destruct batch as [|b0 rest]; [done|]. clear Hne.
  set (batch := b0 :: rest).
  set (len := fun b : example => Z.of_nat (length b.1)).
  set (mz := foldl Z.max (len b0) (len <$> rest)).
  assert (exists b, b ∈ batch /\ len b = mz) as (bm & Hbm & Hmz).
  { pose proof (foldl_max_attained (len <$> rest) (len b0)) as Hin.
    fold mz in Hin. change (mz ∈ len <$> batch) in Hin.
    apply list_elem_of_fmap in Hin as (b & -> & Hb). eauto. }
  assert (forall b, b ∈ batch -> len b <= mz) as Hle.
  { intros b Hb. apply foldl_max_upper.
    change (len b ∈ len <$> batch). by apply list_elem_of_fmap_2. }
  exists (length bm.1). split; [eauto|]. split.
  { intros b Hb. apply Hle in Hb. unfold len in *; cbn beta in *. lia. }
  unfold pad_collate.
  rewrite (result_bind_ok _ _ (len <$> batch)).
  2:{ apply mapM_result_ok. intros b _. by apply index_shape. }
  rewrite (result_bind_ok _ _ mz) by done.
  rewrite (result_bind_ok _ _
             ((fun b : example => (padded (length bm.1) b.1, b.2)) <$> batch)).
  2:{ apply mapM_result_ok. intros b Hb. rewrite <- Hmz. unfold len.
      rewrite pad_tensor_eq; [done..|]. apply Hle in Hb. unfold len in *; cbn beta in *. lia. }
  rewrite <- !list_fmap_compose.
  erewrite result_bind_ok; [done|].
  apply (stack_same_length (length bm.1)); [by unfold batch|].
  intros u (b & -> & Hb)%list_elem_of_fmap. cbn. unfold padded.
  rewrite length_app, length_replicate. apply Hle in Hb.
  unfold len in *; cbn beta in *. lia.
Qed.

(** C6. For a non-empty batch of (sequence, label) pairs, padded along
    the sequence axis, [pad_collate] returns a batch in which every row
    has the greatest original sequence length, begins with the original
    sequence unchanged and continues with zeros only. *)
Theorem pad_collate_pads_to_longest self batch :
  sequence_axis (dim self) -> batch <> [] ->
  exists xs ys,
    pad_collate self batch = Ok (xs, ys) /\ padded_to_longest batch xs.
Proof.
  intros Hd Hne.
  destruct (pad_collate_eq self batch Hd Hne) as (m & Hm & Hle & Heq).
  eexists _, _. split; [exact Heq|]. exists m.
  split; [by split|]. split; [by rewrite length_fmap|].
  intros i b row Hb Hrow. rewrite list_lookup_fmap, Hb in Hrow.
  injection Hrow as <-. apply list_elem_of_lookup_2, Hle in Hb.
  unfold padded. rewrite length_app, length_replicate.
  split; [lia|]. by rewrite take_app_length, drop_app_length.
Qed.

(** The batch <<[([1,2,3], 0), ([4,5], 1)]>> with <<PadCollate(dim=0)>>. *)
Lemma pad_collate_pads_to_longest_witness :
  exists xs ys,
    pad_collate (mk 0) [([1; 2; 3], 0); ([4; 5], 1)] = Ok (xs, ys)
    /\ padded_to_longest [([1; 2; 3], 0); ([4; 5], 1)] xs.
Proof.
  apply (pad_collate_pads_to_longest (mk 0) [([1; 2; 3], 0); ([4; 5], 1)]).
  - left. reflexivity.
  - discriminate.
Defined.

(** C7. For a non-empty batch, row [i] of the stacked sequences is the
    padded form of the sequence of input pair [i], that is, the sequence
    itself followed by zeros up to the greatest sequence length in the
    batch, and entry [i] of the labels is the label of input pair [i],
    unchanged. *)
Theorem pad_collate_keeps_order_and_labels self batch :
  sequence_axis (dim self) -> batch <> [] ->
  exists xs ys,
    pad_collate self batch = Ok (xs, ys)
    /\ ys = snd <$> batch
    /\ order_and_labels_kept self batch xs ys.
Proof.
  intros Hd Hne.
  destruct (pad_collate_eq self batch Hd Hne) as (m & Hm & Hle & Heq).
  eexists _, _. split; [exact Heq|]. split; [done|]. exists m.
  split; [by split|]. rewrite !length_fmap. split; [done|]. split; [done|].
  intros i seq lbl Hb. rewrite !list_lookup_fmap, Hb. cbn.
  split; [done|]. split; [|done]. apply pad_tensor_eq; [done|].
  by apply list_elem_of_lookup_2, Hle in Hb.
Qed.

(** The same batch, for order and labels. *)
Lemma pad_collate_keeps_order_and_labels_witness :
  exists xs ys,
    pad_collate (mk 0) [([1; 2; 3], 0); ([4; 5], 1)] = Ok (xs, ys)
    /\ ys = snd <$> [([1; 2; 3], 0); ([4; 5], 1)]
    /\ order_and_labels_kept (mk 0) [([1; 2; 3], 0); ([4; 5], 1)] xs ys.
Proof.
  apply (pad_collate_keeps_order_and_labels
           (mk 0) [([1; 2; 3], 0); ([4; 5], 1)]).
  - left. reflexivity.
  - discriminate.
Defined.

(** C8. A batch of exactly one pair is padded to its own length: the one
    output row is the input sequence itself, and the one label is the
    input label. *)
Theorem pad_collate_single_is_identity self seq lbl :
  sequence_axis (dim self) ->
  pad_collate self [(seq, lbl)] = Ok ([seq], [lbl]).
Proof.
  intros Hd.
  destruct (pad_collate_eq self [(seq, lbl)] Hd) as (m & Hm & _ & Heq);
    [done|].
  destruct Hm as (b & ->%list_elem_of_singleton & <-).
  rewrite Heq. cbn. unfold padded.
  by rewrite Nat.sub_diag, app_nil_r.
Qed.

(** A single pair, with the axis written -1. *)
Lemma pad_collate_single_is_identity_witness :
  pad_collate (mk (-1)) [([7; 8; 9], 1)] = Ok ([[7; 8; 9]], [1]).
Proof.
  apply (pad_collate_single_is_identity (mk (-1)) [7; 8; 9] 1).
  right. reflexivity.
Defined.

End CollateFacts.

(** * Properties of the hand-built vocabularies *)

Section CellsFacts.
Import Cells.

Lemma enumerate_snoc {A} (l : list A) x :
  enumerate (l ++ [x]) = enumerate l ++ [(Z.of_nat (length l), x)].
Proof. unfold enumerate. rewrite imap_app. cbn. by rewrite Nat.add_0_r. Qed.

Lemma word_to_id_of_snoc l x :
  word_to_id_of (l ++ [x]) = <[x := Z.of_nat (length l)]> (word_to_id_of l).
Proof. unfold word_to_id_of. by rewrite enumerate_snoc, foldl_snoc. Qed.

Lemma id_to_word_of_snoc l x :
  id_to_word_of (l ++ [x]) = <[Z.of_nat (length l) := x]> (id_to_word_of l).
Proof. unfold id_to_word_of. by rewrite enumerate_snoc, foldl_snoc. Qed.

(** The reverse dictionary is the list itself, read by position. *)
Lemma lookup_id_to_word_of l i w :
  id_to_word_of l !! i = Some w <-> 0 <= i /\ l !! Z.to_nat i = Some w.
Proof.
  revert i w. induction l as [|x l IH] using rev_ind; intros i w.
  - unfold id_to_word_of; cbn. rewrite lookup_empty. split; [done|].
    by intros [_ ?].
  - rewrite id_to_word_of_snoc, lookup_snoc_Some.
    destruct (decide (Z.of_nat (length l) = i)) as [<-|Hne].
    + rewrite lookup_insert_eq, Nat2Z.id. split.
      * intros [= <-]. split; [lia|]. by right.
      * intros [_ [[Hlt _]|[_ ->]]]; [lia|done].
    + rewrite lookup_insert_ne, IH by done. split.
      * intros [Hi Hl]. split; [done|]. left. split; [|done].
        by eapply lookup_lt_Some.
      * intros [Hi [[_ Hl]|[Hl _]]]; [done|lia].
Qed.

(** The forward dictionary sends a token to the last position at which
    it occurs. *)
Lemma lookup_word_to_id_of l w i :
  word_to_id_of l !! w = Some i <->
  0 <= i /\ l !! Z.to_nat i = Some w
  /\ forall j, l !! j = Some w -> (j <= Z.to_nat i)%nat.
Proof.
  revert i w. induction l as [|x l IH] using rev_ind; intros i w.
  - unfold word_to_id_of; cbn. rewrite lookup_empty. split; [done|].
    by intros (_ & ? & _).
  - rewrite word_to_id_of_snoc. destruct (decide (x = w)) as [->|Hne].
    + rewrite lookup_insert_eq. split.
      * intros [= <-]. rewrite Nat2Z.id. split; [lia|]. split.
        -- apply lookup_snoc_Some. by right.
        -- intros j Hj%lookup_lt_Some. rewrite length_app in Hj. cbn in Hj. lia.
      * intros (Hi & Hl & Hmax). f_equal.
        apply lookup_lt_Some in Hl. rewrite length_app in Hl. cbn in Hl.
        assert ((l ++ [w]) !! length l = Some w) as Hlast.
        { apply lookup_snoc_Some. by right. }
        apply Hmax in Hlast. lia.
    + rewrite lookup_insert_ne, IH by done. split.
      * intros (Hi & Hl & Hmax). split; [done|]. split.
        -- apply lookup_snoc_Some. left. split; [|done].
           by eapply lookup_lt_Some.
        -- intros j [[_ Hj]|[_ ?]]%lookup_snoc_Some; [by apply Hmax|done].
      * intros (Hi & Hl & Hmax).
        apply lookup_snoc_Some in Hl as [[_ Hl]|[_ ?]]; [|done].
        split; [done|]. split; [done|].
        intros j Hj. apply Hmax, lookup_snoc_Some. left. split; [|done].
        by eapply lookup_lt_Some.
Qed.

Lemma word_to_id_of_present l w :
  w ∈ l -> is_Some (word_to_id_of l !! w).
Proof.
  induction l as [|x l IH] using rev_ind; [by intros ?%not_elem_of_nil|].
  rewrite word_to_id_of_snoc, elem_of_app, list_elem_of_singleton.
  destruct (decide (x = w)) as [->|Hne].
  - rewrite lookup_insert_eq. by eexists.
  - rewrite lookup_insert_ne by done. intros [Hw| ->]; [by apply IH|done].
Qed.

Lemma dom_word_to_id_of l : dom (word_to_id_of l) = unique l.
Proof.
  unfold unique. induction l as [|x l IH] using rev_ind.
  - unfold word_to_id_of; cbn. apply dom_empty_L.
  - rewrite word_to_id_of_snoc, dom_insert_L, list_to_set_snoc_L, IH.
    apply set_eq. intros y. rewrite !elem_of_union. tauto.
Qed.

(** X1. A list of tokens numericalized with the dictionaries made from
    that same list never hits a missing key; each token gets the last
    position at which it occurs in the list; and [id_to_word] at that
    identifier is the token again
    (<<id_to_word[word_to_id[w]] == w>>). The forward dictionary has one
    entry per distinct token. *)
Theorem hand_vocab_round_trip tokens :
  exists ids,
    numericalize (word_to_id_of tokens) tokens = Ok ids
    /\ Forall2 (fun w id =>
                  getitem (word_to_id_of tokens) w = Ok id
                  /\ getitem (id_to_word_of tokens) id = Ok w
                  /\ 0 <= id /\ tokens !! Z.to_nat id = Some w
                  /\ forall j, tokens !! j = Some w -> (j <= Z.to_nat id)%nat)
               tokens ids
    /\ base.size (word_to_id_of tokens) = base.size (unique tokens).
Proof.
  set (d := word_to_id_of tokens).
  exists ((fun w => default 0 (d !! w)) <$> tokens).
  assert (forall w, w ∈ tokens ->
            exists i, d !! w = Some i /\ 0 <= i
                      /\ tokens !! Z.to_nat i = Some w
                      /\ forall j, tokens !! j = Some w -> (j <= Z.to_nat i)%nat)
    as Hd.
  { intros w [i Hi]%word_to_id_of_present. exists i. split; [done|].
    by apply lookup_word_to_id_of. }
  split; [|split].
  - apply mapM_result_ok. intros w (i & Hi & _)%Hd.
    unfold getitem. fold d. by rewrite Hi.
  - apply Forall2_fmap_r, Forall_Forall2_diag, Forall_forall.
    intros w (i & Hi & Hi0 & Hl & Hmax)%Hd. cbn. unfold getitem.
    rewrite Hi. cbn.
    by rewrite (proj2 (lookup_id_to_word_of tokens i w)).
  - by rewrite <- dom_word_to_id_of, size_dom.
Qed.

Lemma numericalize_cons (d : gmap string Z) w tokens :
  numericalize d (w :: tokens) =
  match d !! w with
  | None => Raise KeyError
  | Some i => match numericalize d tokens with
              | Ok ids => Ok (i :: ids)
              | Raise e => Raise e
              end
  end.
Proof.
  unfold numericalize.
  change (mapM (getitem d) (w :: tokens))
    with (getitem d w ≫= fun y =>
          mapM (getitem d) tokens ≫= fun k => mret (y :: k)).
  destruct (d !! w) as [i|] eqn:Hw.
  - assert (getitem d w = Ok i) as -> by (unfold getitem; by rewrite Hw).
    by destruct (mapM (getitem d) tokens).
  - by assert (getitem d w = Raise KeyError) as ->
      by (unfold getitem; by rewrite Hw).
Qed.

Lemma numericalize_cases (d : gmap string Z) tokens :
  (exists ids, numericalize d tokens = Ok ids
               /\ Forall2 (fun w id => d !! w = Some id) tokens ids)
  \/ (numericalize d tokens = Raise KeyError
      /\ Exists (fun w => d !! w = None) tokens).
Proof.
  induction tokens as [|w tokens IH].
  - left. exists []. by split.
  - rewrite numericalize_cons. destruct (d !! w) as [i|] eqn:Hw.
    + destruct IH as [(ids & -> & Hall)|[-> Hex]].
      * left. exists (i :: ids). split; [done|]. by constructor.
      * right. split; [done|]. by right.
    + right. split; [done|]. by left.
Qed.

(** X2. Numericalizing through a bare dictionary fails with [KeyError]
    exactly when some token is not a key of the dictionary (an
    out-of-vocabulary word), and otherwise returns the stored identifier
    of every token, in order. *)
Theorem bare_dict_unknown_word_raises (d : gmap string Z) tokens :
  (numericalize d tokens = Raise KeyError
   <-> Exists (fun w => d !! w = None) tokens)
  /\ ((exists ids, numericalize d tokens = Ok ids
                   /\ Forall2 (fun w id => d !! w = Some id) tokens ids)
      <-> Forall (fun w => is_Some (d !! w)) tokens).
Proof.
  destruct (numericalize_cases d tokens) as [(ids & Hids & Hall)|[Hraise Hex]].
  - assert (Forall (fun w => is_Some (d !! w)) tokens) as Hsome.
    { clear Hids. induction Hall; constructor; eauto. }
    split; split; try done.
    + by rewrite Hids.
    + intros Hex. exfalso. apply Exists_exists in Hex as (w & Hw & Hnone).
      rewrite Forall_forall in Hsome. destruct (Hsome w Hw) as [? ?].
      congruence.
    + eauto.
  - split; split; try done.
    + intros (ids & Hids & _). congruence.
    + intros Hsome. exfalso. apply Exists_exists in Hex as (w & Hw & Hnone).
      rewrite Forall_forall in Hsome. destruct (Hsome w Hw) as [? ?].
      congruence.
Qed.

Lemma iterates_lookup tokens order w i :
  iterates tokens order ->
  word_to_id_of order !! w = Some i <->
  0 <= i /\ order !! Z.to_nat i = Some w.
Proof.
  intros [Hnd _]. rewrite lookup_word_to_id_of. split.
  - intros (? & ? & _). done.
  - intros [Hi Hl]. split; [done|]. split; [done|].
    intros j Hj. by rewrite (NoDup_lookup _ _ _ _ Hnd Hj Hl).
Qed.

(** X3. Built from the set of tokens, whatever the order in which the
    set is iterated, the two dictionaries are inverse to each other, the
    words with an identifier are exactly the tokens, and the identifiers
    are exactly [0 .. n-1] for [n] the number of distinct tokens. *)
Theorem set_vocab_is_dense_bijection tokens order :
  iterates tokens order ->
  let d := word_to_id_of order in
  let r := id_to_word_of order in
  (forall w i, d !! w = Some i <-> r !! i = Some w)
  /\ (forall w, is_Some (d !! w) <-> w ∈ tokens)
  /\ (forall i, is_Some (r !! i)
                <-> 0 <= i < Z.of_nat (base.size (unique tokens)))
  /\ base.size d = base.size (unique tokens).
Proof.
  intros Hit d r. pose proof Hit as [Hnd Hin].
  assert (unique order = unique tokens) as Hset.
  { apply set_eq. intros w. unfold unique.
    by rewrite !elem_of_list_to_set. }
  assert (base.size (unique tokens) = length order) as Hsz.
  { rewrite <- Hset. by apply size_list_to_set. }
  split; [|split; [|split]].
  - intros w i. unfold d, r.
    by rewrite (iterates_lookup tokens), lookup_id_to_word_of.
  - intros w. rewrite <- Hin. split; [|apply word_to_id_of_present].
    intros [i Hi]. apply (iterates_lookup tokens) in Hi as [_ Hi]; [|done].
    by eapply list_elem_of_lookup_2.
  - intros i. rewrite Hsz. unfold r. split.
    + intros [w [Hi Hl]%lookup_id_to_word_of].
      apply lookup_lt_Some in Hl. lia.
    + intros Hi.
      destruct (lookup_lt_is_Some_2 order (Z.to_nat i)) as [w Hw]; [lia|].
      exists w. apply lookup_id_to_word_of. split; [lia|done].
  - unfold d. by rewrite <- size_dom, dom_word_to_id_of, Hset.
Qed.

(** The set of <<["b"; "a"; "b"]>> iterated as <<"a", "b">>. *)
Lemma set_vocab_is_dense_bijection_witness :
  (forall w i, word_to_id_of ["a"; "b"]%string !! w = Some i
               <-> id_to_word_of ["a"; "b"]%string !! i = Some w)
  /\ (forall w, is_Some (word_to_id_of ["a"; "b"]%string !! w)
                <-> w ∈ ["b"; "a"; "b"]%string)
  /\ (forall i, is_Some (id_to_word_of ["a"; "b"]%string !! i)
                <-> 0 <= i < Z.of_nat (base.size (unique ["b"; "a"; "b"]%string)))
  /\ base.size (word_to_id_of ["a"; "b"]%string)
     = base.size (unique ["b"; "a"; "b"]%string).
Proof.
  apply (set_vocab_is_dense_bijection ["b"; "a"; "b"]%string
           ["a"; "b"]%string).
  split.
  - apply (bool_decide_unpack _). vm_compute. exact I.
  - intros w. rewrite !elem_of_cons, !elem_of_nil. tauto.
Defined.

End CellsFacts.

(** * Properties of filling and using a vocabulary *)

Section VocabLoopFacts.
Import Vocab.

Lemma add_word_then_unit w v :
  (add_word w;; mret tt) v = (Ok tt, (add_word w v).2).
Proof.
  unfold mbind, M_bind. rewrite add_word_eq.
  by destruct (word_to_id v !! w).
Qed.

Lemma for_each_add_word ws v :
  Cells.for_each ws (fun w => add_word w;; mret tt) v
  = (Ok tt, foldl (fun v w => (add_word w v).2) v ws).
Proof.
  revert v. induction ws as [|w ws IH]; intros v; cbn; [done|].
  by rewrite (bind_ok _ _ _ _ _ (add_word_then_unit w v)), IH.
Qed.

Lemma for_each_nested {A} (toks_of : A -> list string) xs v :
  Cells.for_each xs (fun x =>
    Cells.for_each (toks_of x) (fun w => add_word w;; mret tt)) v
  = (Ok tt, foldl (fun v w => (add_word w v).2) v (mjoin (toks_of <$> xs))).
Proof.
  revert v. induction xs as [|x xs IH]; intros v; cbn; [done|].
  rewrite (bind_ok _ _ _ _ _ (for_each_add_word (toks_of x) v)), IH.
  by rewrite foldl_app.
Qed.

Lemma all_tokens_eq texts :
  Cells.all_tokens texts = mjoin (Tokenizer.str_split " " <$> texts).
Proof.
  unfold Cells.all_tokens.
  assert (forall acc,
            foldl (fun acc text => acc ++ Tokenizer.str_split " " text) acc texts
            = acc ++ mjoin (Tokenizer.str_split " " <$> texts)) as H.
  { induction texts as [|t texts IH]; intros acc; cbn.
    - by rewrite app_nil_r.
    - by rewrite IH, app_assoc. }
  apply H.
Qed.

Lemma full_vocab_eq texts :
  Cells.full_vocab texts
  = (Ok tt, after default_unk false (Cells.all_tokens texts)).
Proof.
  unfold Cells.full_vocab, Cells.fill_full_vocab.
  by rewrite for_each_nested, all_tokens_eq.
Qed.

Lemma after_size_distinct unk is_label ws :
  size (after unk is_label ws)
  = Z.of_nat (base.size (Cells.unique (history unk is_label ws))).
Proof.
  destruct (after_numbered unk is_label ws) as (-> & _ & _). f_equal.
  rewrite <- (size_list_to_set (C:=gset string))
    by apply NoDup_first_seen.
  f_equal. apply set_eq. intros w. unfold Cells.unique.
  by rewrite !elem_of_list_to_set, elem_of_first_seen.
Qed.

(** X4. The vocabulary filled from all the texts never fails to build
    and has one entry per distinct token of the corpus, plus one for the
    unknown token unless <<'<unk>'>> itself occurs as a token: the
    <<previous length + 1>> that the notebook expects. *)
Theorem full_vocab_has_one_more_entry texts :
  exists v,
    Cells.full_vocab texts = (Ok tt, v)
    /\ len v
       = (Ok (Z.of_nat (base.size (Cells.unique (Cells.all_tokens texts)))
              + (if decide (default_unk ∈ Cells.all_tokens texts)
                 then 0 else 1)), v).
Proof.
  eexists. split; [apply full_vocab_eq|]. unfold len, get. f_equal. f_equal.
  rewrite after_size_distinct. unfold history, Cells.unique. cbn.
  destruct (decide (default_unk ∈ Cells.all_tokens texts)) as [Hin|Hnin].
  - rewrite Z.add_0_r. do 2 f_equal. apply set_eq. intros w.
    rewrite elem_of_union, elem_of_singleton, !elem_of_list_to_set.
    split; [intros [->|?]; done|by right].
  - rewrite size_union, size_singleton; [lia|].
    apply disjoint_singleton_l. by rewrite elem_of_list_to_set.
Qed.

Lemma after_to_id_known unk ws w :
  let v := after unk false ws in
  to_id w v = (Ok (default 0 (word_to_id v !! w)), v)
  /\ 0 <= default 0 (word_to_id v !! w) < size v
  /\ to_word (default 0 (word_to_id v !! w)) v
     = (Ok (if decide (w ∈ history unk false ws) then w else unk), v).
Proof.
  intros v. pose proof (after_numbered unk false ws) as Hnum. fold v in Hnum.
  destruct (after_unk unk false ws) as [Hsym Hid]. fold v in Hsym, Hid.
  assert (id_to_word v !! 0 = Some unk) as H0.
  { destruct Hnum as (_ & _ & Hbwd). apply Hbwd. done. }
  rewrite to_id_eq, to_word_eq, Hid.
  destruct (word_to_id v !! w) as [i|] eqn:Hw; cbn -[history].
  - pose proof Hw as Hr.
    apply (numbered_inverse _ _ _ _ Hnum) in Hr. rewrite Hr.
    split; [done|]. split.
    + apply (numbered_ids _ _ _ Hnum). by eexists.
    + rewrite decide_True; [done|]. apply after_present. by eexists.
  - rewrite H0. split; [done|]. split.
    + apply (numbered_ids _ _ _ Hnum). by eexists.
    + rewrite decide_False; [done|]. rewrite <- after_present.
      fold v. rewrite Hw. by intros [? ?].
Qed.

(** X5. On a vocabulary with unknown-token support, numericalizing any
    list of tokens never fails and changes nothing; every identifier is a
    valid index below [size]; and turning the identifiers back into words
    gives the tokens again with each out-of-vocabulary token replaced by
    the unknown symbol. *)
Theorem encode_decode_replaces_unknown unk ws tokens :
  let v := after unk false ws in
  exists ids,
    Cells.to_ids tokens v = (Ok ids, v)
    /\ length ids = length tokens
    /\ Forall (fun i => 0 <= i < size v) ids
    /\ Cells.to_words ids v
       = (Ok ((fun w => if decide (w ∈ history unk false ws) then w else unk)
              <$> tokens), v).
Proof.
  intros v.
  exists ((fun w => default 0 (word_to_id v !! w)) <$> tokens).
  split; [|split; [|split]].
  - apply mapM_fixed, Forall2_fmap_r, Forall_Forall2_diag, Forall_forall.
    intros w _. apply after_to_id_known.
  - by rewrite length_fmap.
  - apply Forall_fmap, Forall_forall. intros w _. apply after_to_id_known.
  - apply mapM_fixed, Forall2_fmap, Forall_Forall2_diag, Forall_forall.
    intros w _. apply after_to_id_known.
Qed.

(** X6. Every identifier below [size] names a token that was added, and
    looking that token up gives the identifier back. For any other
    identifier [to_word] gives the unknown symbol on a vocabulary with
    unknown-token support, and fails on a label vocabulary, where the
    attribute [unk_symbol] was never assigned. *)
Theorem to_word_then_to_id unk is_label ws i :
  let v := after unk is_label ws in
  (0 <= i < size v ->
     exists w, w ∈ history unk is_label ws
               /\ to_word i v = (Ok w, v) /\ to_id w v = (Ok i, v))
  /\ (~ 0 <= i < size v ->
       to_word i v
       = (if is_label then Raise (AttributeError "unk_symbol") else Ok unk, v)).
Proof.
  intros v. pose proof (after_numbered unk is_label ws) as Hnum.
  fold v in Hnum. split.
  - intros [w Hw]%(numbered_ids _ _ _ Hnum). exists w.
    pose proof Hw as Hd. apply (numbered_inverse _ _ _ _ Hnum) in Hd.
    split; [|split].
    + apply after_present. by eexists.
    + by rewrite to_word_eq, Hw.
    + by rewrite to_id_eq, Hd.
  - intros Hi. rewrite <- (numbered_ids _ _ _ Hnum), <- eq_None_not_Some in Hi.
    destruct (after_unk unk is_label ws) as [Hsym _]. fold v in Hsym.
    rewrite to_word_eq, Hi, Hsym. by destruct is_label.
Qed.

(** Identifier 1 and the unused identifier 5 on a label vocabulary. *)
Lemma to_word_then_to_id_witness :
  (exists w, w ∈ history default_unk true ["pos"; "neg"]%string
             /\ to_word 1 (after default_unk true ["pos"; "neg"]%string)
                = (Ok w, after default_unk true ["pos"; "neg"]%string)
             /\ to_id w (after default_unk true ["pos"; "neg"]%string)
                = (Ok 1, after default_unk true ["pos"; "neg"]%string))
  /\ to_word 5 (after default_unk true ["pos"; "neg"]%string)
     = (Raise (AttributeError "unk_symbol"),
        after default_unk true ["pos"; "neg"]%string).
Proof.
  split.
  - apply (to_word_then_to_id default_unk true ["pos"; "neg"]%string 1).
    vm_compute. split; [discriminate|reflexivity].
  - apply (to_word_then_to_id default_unk true ["pos"; "neg"]%string 5).
    vm_compute. intros [_ H]. discriminate H.
Defined.

End VocabLoopFacts.

(** * Failure modes of padding and collation *)

Section CollateErrors.
Import PadCollate.

Lemma index_shape_bad vec d :
  ~ sequence_axis d -> Torch.index (Torch.shape vec) d = Raise IndexError.
Proof.
  unfold sequence_axis, Torch.index, Torch.shape. cbn. intros Hd.
  destruct (d <? 0) eqn:Hneg.
  - apply Z.ltb_lt in Hneg.
    destruct ((0 <=? Z.of_nat 1 + d) && (Z.of_nat 1 + d <? Z.of_nat 1))
      eqn:E; [|done].
    apply andb_true_iff in E as [?%Z.leb_le ?%Z.ltb_lt]. lia.
  - apply Z.ltb_ge in Hneg.
    destruct ((0 <=? d) && (d <? Z.of_nat 1)) eqn:E; [|done].
    apply andb_true_iff in E as [?%Z.leb_le ?%Z.ltb_lt]. lia.
Qed.

(** X13. [pad_tensor] on a sequence: a dimension other than the sequence
    axis is an [IndexError]; a target length below the sequence's own is a
    [RuntimeError] (a negative size for the block of zeros); otherwise the
    result is the sequence followed by zeros, of exactly the target
    length. *)
Theorem pad_tensor_cases vec pad d :
  (~ sequence_axis d -> pad_tensor vec pad d = Raise IndexError)
  /\ (sequence_axis d -> pad < Z.of_nat (length vec) ->
       pad_tensor vec pad d = Raise RuntimeError)
  /\ (sequence_axis d -> Z.of_nat (length vec) <= pad ->
       exists row, pad_tensor vec pad d = Ok row
                   /\ Z.of_nat (length row) = pad
                   /\ row = vec ++ replicate (Z.to_nat pad - length vec) 0).
Proof.
  split; [|split].
  - intros Hd. unfold pad_tensor, Torch.size.
    by rewrite index_shape_bad.
  - intros Hd Hlt. unfold pad_tensor, Torch.size.
    rewrite (result_bind_ok _ _ _ (index_shape vec d Hd)).
    rewrite (result_bind_ok _ _ _ (setitem_shape vec d _ Hd)).
    unfold Torch.zeros. by rewrite (proj2 (Z.ltb_lt _ _)) by lia.
  - intros Hd Hle. eexists. split; [|split; [|done]].
    + rewrite <- (Z2Nat.id pad) at 1 by lia.
      apply pad_tensor_eq; [done|lia].
    + rewrite length_app, length_replicate. lia.
Qed.

(** A sequence of three with target 5, target 2, and a wrong axis. *)
Lemma pad_tensor_cases_witness :
  pad_tensor [1; 2; 3] 5 1 = Raise IndexError
  /\ pad_tensor [1; 2; 3] 2 0 = Raise RuntimeError
  /\ (exists row, pad_tensor [1; 2; 3] 5 0 = Ok row
                  /\ Z.of_nat (length row) = 5
                  /\ row = [1; 2; 3] ++ replicate (Z.to_nat 5 - length [1; 2; 3]) 0).
Proof.
  split; [|split].
  - apply (pad_tensor_cases [1; 2; 3] 5 1). intros [H|H]; discriminate H.
  - apply (pad_tensor_cases [1; 2; 3] 2 0); [by left|reflexivity].
  - apply (pad_tensor_cases [1; 2; 3] 5 0); [by left|discriminate].
Defined.

(** X12. [pad_collate] returns a batch exactly when the batch is
    non-empty and the padding dimension is the sequence axis. On an empty
    batch it fails with [ValueError] ([max] of nothing), whatever the
    dimension; on a non-empty batch with another dimension it fails with
    [IndexError]. *)
Theorem pad_collate_failure_modes self batch :
  (batch = [] -> pad_collate self batch = Raise ValueError)
  /\ (batch <> [] -> ~ sequence_axis (dim self) ->
       pad_collate self batch = Raise IndexError)
  /\ ((exists out, pad_collate self batch = Ok out)
      <-> batch <> [] /\ sequence_axis (dim self)).
Proof.
  assert (batch = [] -> pad_collate self batch = Raise ValueError) as Hempty.
  { by intros ->. }
  assert (batch <> [] -> ~ sequence_axis (dim self) ->
          pad_collate self batch = Raise IndexError) as Hbad.
  { intros Hne Hd. destruct batch as [|b rest]; [done|].
    unfold pad_collate. cbn [mapM].
    by rewrite index_shape_bad. }
  split; [done|]. split; [done|]. split.
  - intros [out Hout]. destruct batch as [|b rest].
    + rewrite Hempty in Hout; done.
    + split; [done|].
      destruct (decide (dim self = 0)) as [H0|H0]; [by left|].
      destruct (decide (dim self = -1)) as [H1|H1]; [by right|].
      rewrite Hbad in Hout; [done..|]. by intros [?|?].
  - intros [Hne Hd]. destruct (pad_collate_eq self batch Hd Hne)
      as (m & _ & _ & Heq). eauto.
Qed.

(** The empty batch, and a batch collated along dimension 1. *)
Lemma pad_collate_failure_modes_witness :
  pad_collate (mk 0) [] = Raise ValueError
  /\ pad_collate (mk 1) [([1; 2], 0)] = Raise IndexError.
Proof.
  split.
  - by apply (pad_collate_failure_modes (mk 0) []).
  - apply (pad_collate_failure_modes (mk 1) [([1; 2], 0)]); [discriminate|].
    intros [H|H]; discriminate H.
Defined.

End CollateErrors.

(** * Properties of the dataset pipeline *)

Section PipelineFacts.
Import Pipeline.
#[local] Existing Instances Vocab.M_ret Vocab.M_bind.

Lemma make_vocab_eq str_lower fields is_label :
  make_vocab str_lower fields is_label
  = Ok (Vocab.after Vocab.default_unk is_label (field_tokens str_lower fields)).
Proof. unfold make_vocab. by rewrite for_each_nested. Qed.

Lemma elem_of_field_tokens str_lower fields t w :
  t ∈ fields -> w ∈ Tokenizer.call str_lower text_tokenizer t ->
  w ∈ field_tokens str_lower fields.
Proof.
  intros Ht Hw. unfold field_tokens. apply list_elem_of_join.
  eexists. split; [done|]. by apply list_elem_of_fmap_2.
Qed.

(** A token that was added is looked up without error on either kind of
    vocabulary. *)
Lemma after_to_id_present unk is_label ws w :
  let v := Vocab.after unk is_label ws in
  let i := default 0 (Vocab.word_to_id v !! w) in
  w ∈ Vocab.history unk is_label ws ->
  Vocab.to_id w v = (Ok i, v)
  /\ 0 <= i < Vocab.size v
  /\ Vocab.to_word i v = (Ok w, v).
Proof.
  intros v i Hin. pose proof (after_numbered unk is_label ws) as Hnum.
  fold v in Hnum. apply after_present in Hin as [j Hj]. fold v in Hj.
  unfold i. rewrite Hj. cbn. pose proof Hj as Hr.
  apply (numbered_inverse _ _ _ _ Hnum) in Hr.
  rewrite to_id_eq, to_word_eq, Hj, Hr. split; [done|]. split; [|done].
  apply (numbered_ids _ _ _ Hnum). by eexists.
Qed.

Lemma numericalize_present unk is_label ws toks :
  let v := Vocab.after unk is_label ws in
  let ids := (fun w => default 0 (Vocab.word_to_id v !! w)) <$> toks in
  Forall (fun w => w ∈ Vocab.history unk is_label ws) toks ->
  _numericalize toks v = (Ok ids, v)
  /\ Forall (fun i => 0 <= i < Vocab.size v) ids
  /\ Cells.to_words ids v = (Ok toks, v).
Proof.
  intros v ids Hall. rewrite Forall_forall in Hall. split; [|split].
  - apply mapM_fixed, Forall2_fmap_r, Forall_Forall2_diag, Forall_forall.
    intros w Hw. by apply after_to_id_present, Hall.
  - apply Forall_fmap, Forall_forall. intros w Hw.
    by apply after_to_id_present, Hall.
  - apply mapM_fixed, Forall2_fmap_l, Forall_Forall2_diag, Forall_forall.
    intros w Hw. by apply after_to_id_present, Hall.
Qed.

(** X7. [make_vocab] never fails, and every token that the lowercasing
    tokenizer yields on any of the fields can afterwards be looked up
    without error, also on a label vocabulary: [to_id] gives an
    identifier below [size] and [to_word] of it is the token again. *)
Theorem make_vocab_knows_its_tokens str_lower fields is_label t w :
  t ∈ fields -> w ∈ Tokenizer.call str_lower text_tokenizer t ->
  exists v i,
    make_vocab str_lower fields is_label = Ok v
    /\ Vocab.to_id w v = (Ok i, v)
    /\ 0 <= i < Vocab.size v
    /\ Vocab.to_word i v = (Ok w, v).
Proof.
  intros Ht Hw. eexists _, _. split; [apply make_vocab_eq|].
  apply after_to_id_present. unfold Vocab.history.
  apply elem_of_app. right. by eapply elem_of_field_tokens.
Qed.

(** The label column <<["Positive"; "negative"]>> and the token
    <<"positive">>. *)
Lemma make_vocab_knows_its_tokens_witness :
  exists v i,
    make_vocab Tokenizer.ascii_lower ["Positive"; "negative"]%string true
    = Ok v
    /\ Vocab.to_id "positive" v = (Ok i, v)
    /\ 0 <= i < Vocab.size v
    /\ Vocab.to_word i v = (Ok "positive"%string, v).
Proof.
  apply (make_vocab_knows_its_tokens Tokenizer.ascii_lower
           ["Positive"; "negative"]%string true "Positive"%string).
  - apply (bool_decide_unpack _). vm_compute. exact I.
  - apply (bool_decide_unpack _). vm_compute. exact I.
Defined.

Lemma index_in_range {A} (l : list A) (i : Z) :
  - Z.of_nat (length l) <= i < Z.of_nat (length l) ->
  exists x, l !! Z.to_nat (i mod Z.of_nat (length l)) = Some x
            /\ Torch.index l i = Ok x.
Proof.
  intros Hi. unfold Torch.index. set (n := Z.of_nat (length l)) in *.
  assert ((if i <? 0 then n + i else i) = i mod n) as ->.
  { destruct (i <? 0) eqn:Hneg.
    - apply Z.ltb_lt in Hneg. apply Z.mod_unique_pos with (-1); lia.
    - apply Z.ltb_ge in Hneg. symmetry. apply Z.mod_small. lia. }
  assert (0 <= i mod n < n) as Hm by (apply Z.mod_pos_bound; lia).
  rewrite (proj2 (Z.leb_le _ _)), (proj2 (Z.ltb_lt _ _)) by lia. cbn.
  destruct (lookup_lt_is_Some_2 l (Z.to_nat (i mod n))) as [x Hx];
    [unfold n in *; lia|].
  exists x. by rewrite Hx.
Qed.

Lemma index_out_of_range {A} (l : list A) (i : Z) :
  i < - Z.of_nat (length l) \/ Z.of_nat (length l) <= i ->
  Torch.index l i = Raise IndexError.
Proof.
  intros Hi. unfold Torch.index. set (n := Z.of_nat (length l)) in *.
  destruct (i <? 0) eqn:Hneg.
  - apply Z.ltb_lt in Hneg.
    destruct ((0 <=? n + i) && (n + i <? n)) eqn:E; [|done].
    apply andb_true_iff in E as [?%Z.leb_le ?%Z.ltb_lt]. lia.
  - apply Z.ltb_ge in Hneg.
    destruct ((0 <=? i) && (i <? n)) eqn:E; [|done].
    apply andb_true_iff in E as [?%Z.leb_le ?%Z.ltb_lt]. lia.
Qed.

(** X9. With [n] rows, <<dataset[idx]>> fails with [IndexError] for a
    position below [-n] or from [n] on, with or without a transform, and
    leaves the dataset as it was; without a transform, a position within
    these bounds yields the two strings of row [idx mod n], so that
    negative positions count from the end. *)
Theorem getitem_index_bounds str_lower ds idx :
  let n := Dataset_len ds in
  (idx < - n \/ n <= idx ->
     Dataset_getitem str_lower ds idx = (Raise IndexError, ds))
  /\ (transform ds = None -> - n <= idx < n ->
       exists row, df ds !! Z.to_nat (idx mod n) = Some row
                   /\ Dataset_getitem str_lower ds idx
                      = (Ok (Raw row.1 row.2), ds)).
Proof.
  intros n. unfold Dataset_getitem. split.
  - intros Hi. by rewrite index_out_of_range.
  - intros Htr Hi. destruct (index_in_range (df ds) idx Hi) as (row & Hrow & ->).
    exists row. split; [done|]. cbn. by rewrite Htr.
Qed.

(** Two rows read at positions -1 and 2. *)
Lemma getitem_index_bounds_witness :
  Dataset_getitem Tokenizer.ascii_lower
    (mk_Dataset [("a b", "pos"); ("c", "neg")]%string None) 2
  = (Raise IndexError, mk_Dataset [("a b", "pos"); ("c", "neg")]%string None)
  /\ (exists row,
        df (mk_Dataset [("a b", "pos"); ("c", "neg")]%string None)
          !! Z.to_nat (-1 mod Dataset_len
                         (mk_Dataset [("a b", "pos"); ("c", "neg")]%string None))
        = Some row
        /\ Dataset_getitem Tokenizer.ascii_lower
             (mk_Dataset [("a b", "pos"); ("c", "neg")]%string None) (-1)
           = (Ok (Raw row.1 row.2),
              mk_Dataset [("a b", "pos"); ("c", "neg")]%string None)).
Proof.
  split.
  - apply (getitem_index_bounds Tokenizer.ascii_lower
             (mk_Dataset [("a b", "pos"); ("c", "neg")]%string None) 2).
    right. vm_compute. discriminate.
  - apply (getitem_index_bounds Tokenizer.ascii_lower
             (mk_Dataset [("a b", "pos"); ("c", "neg")]%string None) (-1)).
    + reflexivity.
    + vm_compute. split; [discriminate|reflexivity].
Defined.

Lemma mapM_M_cons {A B} (f : A -> Vocab.M B) x xs v :
  mapM f (x :: xs) v =
  match f x v with
  | (Ok y, v') =>
      match mapM f xs v' with
      | (Ok ys, v'') => (Ok (y :: ys), v'')
      | (Raise e, v'') => (Raise e, v'')
      end
  | (Raise e, v') => (Raise e, v')
  end.
Proof.
  change (mapM f (x :: xs) v)
    with ((f x ≫= fun y => mapM f xs ≫= fun k => mret (y :: k)) v).
  unfold mbind at 1, Vocab.M_bind at 1.
  destruct (f x v) as [[y|e] v']; [|done].
  unfold mbind, Vocab.M_bind. by destruct (mapM f xs v') as [[ys|e] v''].
Qed.

Lemma numericalize_text_total unk ws toks :
  let v := Vocab.after unk false ws in
  _numericalize toks v
  = (Ok ((fun w => default 0 (Vocab.word_to_id v !! w)) <$> toks), v).
Proof.
  intros v.
  apply mapM_fixed, Forall2_fmap_r, Forall_Forall2_diag, Forall_forall.
  intros w _. apply after_to_id_known.
Qed.

Lemma label_to_id_absent unk wl w :
  w ∉ wl ->
  Vocab.to_id w (Vocab.after unk true wl)
  = (Raise (AttributeError "unk_id"), Vocab.after unk true wl).
Proof.
  intros Hw. destruct (after_unk unk true wl) as [_ Hid].
  rewrite to_id_eq, Hid.
  assert (Vocab.word_to_id (Vocab.after unk true wl) !! w = None) as ->;
    [|done].
  apply eq_None_not_Some. by rewrite after_present.
Qed.

Lemma label_numericalize_absent unk wl toks :
  Exists (fun w => w ∉ wl) toks ->
  _numericalize toks (Vocab.after unk true wl)
  = (Raise (AttributeError "unk_id"), Vocab.after unk true wl).
Proof.
  unfold _numericalize. induction toks as [|w toks IH]; intros Hex.
  - by apply Exists_nil in Hex.
  - rewrite mapM_M_cons. destruct (decide (w ∈ wl)) as [Hin|Hnin].
    + destruct (after_to_id_present unk true wl w) as (-> & _); [done|].
      rewrite IH; [done|]. by apply Exists_cons in Hex as [?|?].
    + by rewrite label_to_id_absent.
Qed.

Lemma index_head {A} (x : A) l : Torch.index (x :: l) 0 = Ok x.
Proof.
  unfold Torch.index. cbn [length]. change (0 <? 0) with false. cbv iota.
  by rewrite (proj2 (Z.ltb_lt 0 (Z.of_nat (S (length l))))) by lia.
Qed.

(** X10. [Numericalize] with a text vocabulary (unknown token enabled)
    and a label vocabulary: the text never makes it fail; it fails with
    the missing-attribute error as soon as one token of the label has not
    been added to the label vocabulary, and with [IndexError] on a label
    without tokens; otherwise the label becomes the identifier of its
    first token alone. The two vocabularies are left as they were. *)
Theorem numericalize_label_cases unk wt unk' wl
    (s : sample (list string) (list string)) :
  let tv := Vocab.after unk false wt in
  let lv := Vocab.after unk' true wl in
  let nz := mk_Numericalize tv lv in
  (Exists (fun w => w ∉ wl) (label s) ->
     Numericalize_call nz s = (Raise (AttributeError "unk_id"), nz))
  /\ (label s = [] -> Numericalize_call nz s = (Raise IndexError, nz))
  /\ (forall l0 rest, label s = l0 :: rest ->
       Forall (fun w => w ∈ wl) (label s) ->
       exists ids lbl,
         Numericalize_call nz s = (Ok (mk_sample ids lbl), nz)
         /\ Cells.to_ids (text s) tv = (Ok ids, tv)
         /\ Vocab.to_id l0 lv = (Ok lbl, lv)).
Proof.
  intros tv lv nz. subst tv lv nz. unfold Numericalize_call.
  cbn [text_vocab label_vocab]. rewrite numericalize_text_total.
  split; [|split].
  - intros Hex. by rewrite label_numericalize_absent.
  - intros ->. done.
  - intros l0 rest Hl Hall.
    destruct (numericalize_present unk' true wl (label s)) as (Hn & _); [done|].
    rewrite Hn, Hl. cbn [fmap list_fmap].
    rewrite index_head. eexists _, _. split; [done|]. split.
    + apply numericalize_text_total.
    + apply after_to_id_present. rewrite Hl in Hall.
      by apply Forall_cons in Hall as [? _].
Qed.

(** Labels <<["pos"]>>, <<["pos"; "neutral"]>> and the empty label against
    the label vocabulary of <<"pos", "neg">>. *)
Lemma numericalize_label_cases_witness :
  Numericalize_call
    (mk_Numericalize (Vocab.after "<unk>" false ["a"]%string)
                     (Vocab.after "<unk>" true ["pos"; "neg"]%string))
    (mk_sample ["a"; "b"]%string ["pos"; "neutral"]%string)
  = (Raise (AttributeError "unk_id"),
     mk_Numericalize (Vocab.after "<unk>" false ["a"]%string)
                     (Vocab.after "<unk>" true ["pos"; "neg"]%string))
  /\ Numericalize_call
       (mk_Numericalize (Vocab.after "<unk>" false ["a"]%string)
                        (Vocab.after "<unk>" true ["pos"; "neg"]%string))
       (mk_sample ["a"; "b"]%string [])
     = (Raise IndexError,
        mk_Numericalize (Vocab.after "<unk>" false ["a"]%string)
                        (Vocab.after "<unk>" true ["pos"; "neg"]%string))
  /\ (exists ids lbl,
        Numericalize_call
          (mk_Numericalize (Vocab.after "<unk>" false ["a"]%string)
                           (Vocab.after "<unk>" true ["pos"; "neg"]%string))
          (mk_sample ["a"; "b"]%string ["neg"; "pos"]%string)
        = (Ok (mk_sample ids lbl),
           mk_Numericalize (Vocab.after "<unk>" false ["a"]%string)
                           (Vocab.after "<unk>" true ["pos"; "neg"]%string))
        /\ Cells.to_ids ["a"; "b"]%string (Vocab.after "<unk>" false ["a"]%string)
           = (Ok ids, Vocab.after "<unk>" false ["a"]%string)
        /\ Vocab.to_id "neg" (Vocab.after "<unk>" true ["pos"; "neg"]%string)
           = (Ok lbl, Vocab.after "<unk>" true ["pos"; "neg"]%string)).
Proof.
  split; [|split].
  - apply (numericalize_label_cases "<unk>" ["a"]%string "<unk>"
             ["pos"; "neg"]%string
             (mk_sample ["a"; "b"]%string ["pos"; "neutral"]%string)).
    apply (bool_decide_unpack _). vm_compute. exact I.
  - by apply (numericalize_label_cases "<unk>" ["a"]%string "<unk>"
                ["pos"; "neg"]%string (mk_sample ["a"; "b"]%string [])).
  - apply (proj2 (proj2 (numericalize_label_cases "<unk>" ["a"]%string
             "<unk>" ["pos"; "neg"]%string
             (mk_sample ["a"; "b"]%string ["neg"; "pos"]%string)))
             "neg"%string ["pos"%string]); [reflexivity|].
    apply (bool_decide_unpack _). vm_compute. exact I.
Defined.

Lemma Numericalize_call_present unk wt unk' wl
    (s : sample (list string) (list string)) l0 rest :
  let tv := Vocab.after unk false wt in
  let lv := Vocab.after unk' true wl in
  label s = l0 :: rest ->
  Forall (fun w => w ∈ wl) (label s) ->
  Numericalize_call (mk_Numericalize tv lv) s
  = (Ok (mk_sample
           ((fun w => default 0 (Vocab.word_to_id tv !! w)) <$> text s)
           (default 0 (Vocab.word_to_id lv !! l0))),
     mk_Numericalize tv lv).
Proof.
  intros tv lv Hl Hall. subst tv lv. unfold Numericalize_call.
  cbn [text_vocab label_vocab]. rewrite numericalize_text_total.
  destruct (numericalize_present unk' true wl (label s)) as (Hn & _); [done|].
  rewrite Hn, Hl. cbn [fmap list_fmap]. by rewrite index_head.
Qed.

Lemma call_nonempty str_lower tk text :
  exists l0 rest, Tokenizer.call str_lower tk text = l0 :: rest.
Proof.
  unfold Tokenizer.call.
  pose proof (str_split_nonempty " " text) as Hne.
  destruct (Tokenizer.str_split " " text) as [|p ps]; [done|].
  cbn. eauto.
Qed.

Lemma length_call str_lower tk text :
  length (Tokenizer.call str_lower tk text)
  = S (Tokenizer.str_count " " text).
Proof. unfold Tokenizer.call. by rewrite length_fmap, length_str_split. Qed.

(** X8. In the dataset of the notebook, whose two vocabularies are made
    from its own columns, every position within bounds yields an item
    without any lookup failing and without changing the dataset: one
    identifier per token of the text (one more than the text has spaces,
    so never an empty sequence), each a valid index below the size of the
    text vocabulary and decoding to the lowercased token it stands for;
    and a label that is a valid index below the size of the label
    vocabulary, the identifier of the first lowercased token of the row's
    label. *)
Theorem dataset_item_is_valid str_lower rows idx :
  - Z.of_nat (length rows) <= idx < Z.of_nat (length rows) ->
  exists ds tv lv row ids lbl,
    imdb_dataset str_lower rows = Ok ds
    /\ transform ds
       = Some (mk_Compose (mk_Tokenize text_tokenizer)
                          (mk_Numericalize tv lv))
    /\ rows !! Z.to_nat (idx mod Z.of_nat (length rows)) = Some row
    /\ Dataset_getitem str_lower ds idx = (Ok (Numbers ids lbl), ds)
    /\ length ids = S (Tokenizer.str_count " " row.1)
    /\ Forall (fun i => 0 <= i < Vocab.size tv) ids
    /\ Cells.to_words ids tv
       = (Ok (Tokenizer.call str_lower text_tokenizer row.1), tv)
    /\ 0 <= lbl < Vocab.size lv
    /\ exists l0 rest,
         Tokenizer.call str_lower text_tokenizer row.2 = l0 :: rest
         /\ Vocab.to_word lbl lv = (Ok l0, lv).
Proof.
  intros Hidx.
  set (wt := field_tokens str_lower (fst <$> rows)).
  set (wl := field_tokens str_lower (snd <$> rows)).
  set (tv := Vocab.after Vocab.default_unk false wt).
  set (lv := Vocab.after Vocab.default_unk true wl).
  destruct (index_in_range rows idx Hidx) as (row & Hrow & Hindex).
  assert (row ∈ rows) as Hin by (by eapply list_elem_of_lookup_2).
  set (toks := Tokenizer.call str_lower text_tokenizer row.1).
  destruct (call_nonempty str_lower text_tokenizer row.2) as (l0 & rest & Hl).
  assert (Forall (fun w => w ∈ Vocab.history Vocab.default_unk false wt) toks)
    as Htoks.
  { apply Forall_forall. intros w Hw. unfold Vocab.history.
    apply elem_of_app. right.
    apply (elem_of_field_tokens _ _ row.1); [|done].
    by apply list_elem_of_fmap_2. }
  assert (Forall (fun w => w ∈ wl)
            (Tokenizer.call str_lower text_tokenizer row.2)) as Hlabel.
  { apply Forall_forall. intros w Hw.
    apply (elem_of_field_tokens _ _ row.2); [|done].
    by apply list_elem_of_fmap_2. }
  destruct (numericalize_present Vocab.default_unk false wt toks Htoks)
    as (_ & Hrange & Hdecode). fold tv in Hrange, Hdecode.
  destruct (after_to_id_present Vocab.default_unk true wl l0)
    as (_ & Hlrange & Hlword).
  { rewrite Hl in Hlabel. by apply Forall_cons in Hlabel as [? _]. }
  fold lv in Hlrange, Hlword.
  exists (mk_Dataset rows
            (Some (mk_Compose (mk_Tokenize text_tokenizer)
                              (mk_Numericalize tv lv)))),
    tv, lv, row,
    ((fun w => default 0 (Vocab.word_to_id tv !! w)) <$> toks),
    (default 0 (Vocab.word_to_id lv !! l0)).
  split.
  { unfold imdb_dataset. by rewrite !make_vocab_eq. }
  split; [done|]. split; [done|]. split.
  { unfold Dataset_getitem. cbn [df transform]. rewrite Hindex.
    cbn [mbind result_bind mret result_ret fst snd].
    unfold Compose_call, Tokenize_call.
    cbn [tokenize numericalize tokenizer text label].
    pose proof (Numericalize_call_present Vocab.default_unk wt
                  Vocab.default_unk wl
                  (mk_sample toks (Tokenizer.call str_lower text_tokenizer row.2))
                  l0 rest Hl Hlabel) as Hcall.
    cbv zeta in Hcall. fold tv lv in Hcall. cbn [text label] in Hcall.
    fold toks. by rewrite Hcall. }
  split.
  { unfold toks. by rewrite length_fmap, length_call. }
  split; [exact Hrange|]. split; [exact Hdecode|].
  split; [exact Hlrange|]. by eauto.
Qed.

(** Two rows, read at position 1. *)
Lemma dataset_item_is_valid_witness :
  exists ds tv lv row ids lbl,
    imdb_dataset Tokenizer.ascii_lower
      [("Good film", "positive"); ("Bad", "negative")]%string = Ok ds
    /\ transform ds
       = Some (mk_Compose (mk_Tokenize text_tokenizer)
                          (mk_Numericalize tv lv))
    /\ [("Good film", "positive"); ("Bad", "negative")]%string
         !! Z.to_nat (1 mod Z.of_nat (length
              [("Good film", "positive"); ("Bad", "negative")]%string))
       = Some row
    /\ Dataset_getitem Tokenizer.ascii_lower ds 1 = (Ok (Numbers ids lbl), ds)
    /\ length ids = S (Tokenizer.str_count " " row.1)
    /\ Forall (fun i => 0 <= i < Vocab.size tv) ids
    /\ Cells.to_words ids tv
       = (Ok (Tokenizer.call Tokenizer.ascii_lower text_tokenizer row.1), tv)
    /\ 0 <= lbl < Vocab.size lv
    /\ exists l0 rest,
         Tokenizer.call Tokenizer.ascii_lower text_tokenizer row.2 = l0 :: rest
         /\ Vocab.to_word lbl lv = (Ok l0, lv).
Proof.
  apply (dataset_item_is_valid Tokenizer.ascii_lower
           [("Good film", "positive"); ("Bad", "negative")]%string 1).
  vm_compute. split; [discriminate|reflexivity].
Defined.

Lemma to_words_padded unk ws ids dec k :
  let v := Vocab.after unk false ws in
  Cells.to_words ids v = (Ok dec, v) ->
  Cells.to_words (ids ++ replicate k 0) v = (Ok (dec ++ replicate k unk), v).
Proof.
  intros v. revert dec. unfold Cells.to_words.
  assert (Vocab.to_word 0 v = (Ok unk, v)) as H0.
  { destruct (after_to_id_known unk ws unk) as (_ & _ & Hw). fold v in Hw.
    pose proof (after_numbered unk false ws) as (_ & Hfwd & _).
    assert (Vocab.word_to_id v !! unk = Some 0) as Hu by (by apply Hfwd).
    rewrite Hu in Hw. cbn in Hw. rewrite Hw. by destruct (decide _). }
  induction ids as [|i ids IH]; intros dec.
  - cbn [mapM app]. intros [= <-]. cbn [app].
    apply mapM_fixed, Forall2_replicate, H0.
  - cbn [app]. rewrite !mapM_M_cons.
    destruct (Vocab.to_word i v) as [[w|e] v'] eqn:Hi; [|done].
    assert (v' = v) as ->.
    { pose proof (to_word_eq i v) as Heq. rewrite Hi in Heq.
      by destruct (Vocab.id_to_word v !! i), (Vocab.unk_symbol v);
        inversion Heq. }
    destruct (mapM Vocab.to_word ids v) as [[ws'|e] v'] eqn:Hrest; [|done].
    intros [= <- ->]. by rewrite (IH ws' eq_refl).
Qed.

(** X11. Texts numericalized with a vocabulary that has the unknown token,
    paired with labels and collated along dimension 0: collation returns;
    the labels come out as they went in; every entry of every row is a
    valid index below the size of the vocabulary; and turning a row back
    into words gives the tokens of its text (unknown ones as the unknown
    symbol) followed by the unknown symbol once per padding position,
    since the padding value 0 is the identifier of the unknown token. *)
Theorem collated_rows_decode_with_unknown_padding unk ws
    (texts : list (list string)) (labels : list Z) :
  texts <> [] -> length labels = length texts ->
  let v := Vocab.after unk false ws in
  let known := fun w => if decide (w ∈ Vocab.history unk false ws)
                        then w else unk in
  exists seqs xs,
    Forall2 (fun toks ids => Cells.to_ids toks v = (Ok ids, v)) texts seqs
    /\ PadCollate.pad_collate (PadCollate.mk 0) (zip seqs labels)
       = Ok (xs, labels)
    /\ Forall (Forall (fun i => 0 <= i < Vocab.size v)) xs
    /\ Forall2 (fun toks row =>
                  exists k, Cells.to_words row v
                            = (Ok ((known <$> toks) ++ replicate k unk), v))
               texts xs.
Proof.
  intros Hne Hlen v known.
  set (enc := fun toks : list string =>
                (fun w => default 0 (Vocab.word_to_id v !! w)) <$> toks).
  assert (forall toks,
            Cells.to_ids toks v = (Ok (enc toks), v)
            /\ Forall (fun i => 0 <= i < Vocab.size v) (enc toks)
            /\ Cells.to_words (enc toks) v = (Ok (known <$> toks), v)) as Henc.
  { intros toks. split; [|split].
    - apply mapM_fixed, Forall2_fmap_r, Forall_Forall2_diag, Forall_forall.
      intros w _. apply after_to_id_known.
    - apply Forall_fmap, Forall_forall. intros w _. apply after_to_id_known.
    - apply mapM_fixed, Forall2_fmap, Forall_Forall2_diag, Forall_forall.
      intros w _. apply after_to_id_known. }
  assert (0 < Vocab.size v) as Hpos.
  { destruct (after_to_id_known unk ws unk) as (_ & ? & _). fold v in H. lia. }
  set (seqs := enc <$> texts).
  assert (zip seqs labels <> []) as Hbatch.
  { destruct texts, labels; done. }
  destruct (pad_collate_eq (PadCollate.mk 0) (zip seqs labels))
    as (m & _ & _ & Heq); [by left|done|].
  rewrite snd_zip in Heq by (unfold seqs; rewrite length_fmap; lia).
  change ((fun b : list Z * Z => PadCollate.padded m b.1))
    with (PadCollate.padded m ∘ (fst : list Z * Z -> list Z)) in Heq.
  rewrite list_fmap_compose, fst_zip in Heq
    by (unfold seqs; rewrite length_fmap; lia).
  exists seqs, (PadCollate.padded m <$> seqs).
  split; [|split; [done|split]].
  - apply Forall2_fmap_r, Forall_Forall2_diag, Forall_forall.
    intros toks _. apply Henc.
  - unfold seqs. rewrite <- list_fmap_compose.
    apply Forall_fmap, Forall_forall. intros toks _. cbn.
    unfold PadCollate.padded. apply Forall_app. split; [apply Henc|].
    apply Forall_replicate. lia.
  - unfold seqs. rewrite <- list_fmap_compose.
    apply Forall2_fmap_r, Forall_Forall2_diag, Forall_forall.
    intros toks _. cbn. eexists. unfold PadCollate.padded.
    apply to_words_padded, Henc.
Qed.

(** Two texts of three and one token, the second with an unknown word. *)
Lemma collated_rows_decode_with_unknown_padding_witness :
  exists seqs xs,
    Forall2 (fun toks ids =>
               Cells.to_ids toks (Vocab.after "<unk>" false ["a"; "b"]%string)
               = (Ok ids, Vocab.after "<unk>" false ["a"; "b"]%string))
            [["a"; "b"; "a"]; ["z"]]%string seqs
    /\ PadCollate.pad_collate (PadCollate.mk 0) (zip seqs [1; 0])
       = Ok (xs, [1; 0])
    /\ Forall (Forall (fun i =>
          0 <= i < Vocab.size (Vocab.after "<unk>" false ["a"; "b"]%string))) xs
    /\ Forall2 (fun toks row =>
                  exists k,
                    Cells.to_words row
                      (Vocab.after "<unk>" false ["a"; "b"]%string)
                    = (Ok (((fun w => if decide (w ∈ Vocab.history "<unk>" false
                                                     ["a"; "b"]%string)
                                      then w else "<unk>"%string) <$> toks)
                           ++ replicate k "<unk>"%string),
                       Vocab.after "<unk>" false ["a"; "b"]%string))
               [["a"; "b"; "a"]; ["z"]]%string xs.
Proof.
  apply (collated_rows_decode_with_unknown_padding "<unk>" ["a"; "b"]%string
           [["a"; "b"; "a"]; ["z"]]%string [1; 0]).
  - discriminate.
  - reflexivity.
Defined.

End PipelineFacts.

(** * Worked scenarios *)

Example ex_vocab_scenario :
  let v := Vocab.after "<unk>" false ["a"; "b"; "a"; "c"]%string in
  Vocab.len v = (Ok 4, v)
  /\ Vocab.to_id "<unk>" v = (Ok 0, v) /\ Vocab.to_id "a" v = (Ok 1, v)
  /\ Vocab.to_id "b" v = (Ok 2, v) /\ Vocab.to_id "c" v = (Ok 3, v)
  /\ Vocab.to_id "z" v = (Ok 0, v).
Proof. vm_compute. repeat split. Qed.

Example ex_label_vocab_scenario :
  let v := Vocab.after "<unk>" true ["pos"; "neg"; "pos"]%string in
  Vocab.len v = (Ok 2, v)
  /\ Vocab.to_id "neutral" v = (Raise (AttributeError "unk_id"), v).
Proof. vm_compute. repeat split. Qed.

Example ex_first_seen :
  Vocab.first_seen ["a"; "b"; "a"; "c"; "b"]%string = ["a"; "b"; "c"]%string.
Proof. reflexivity. Qed.

Example ex_calls_interleaved :
  foldl (fun v c => Vocab.invoke c v) (Vocab.new "<unk>" false)
    [Vocab.AddWord "a"; Vocab.ToId "q"; Vocab.AddWord "b"; Vocab.Len;
     Vocab.ToWord 9; Vocab.AddWord "a"]
  = Vocab.after "<unk>" false ["a"; "b"; "a"]%string.
Proof. apply invoke_all_after. Qed.

Example ex_collate_scenario :
  PadCollate.call (PadCollate.mk 0) [([1; 2; 3], 0); ([4; 5], 1)]
  = Ok ([[1; 2; 3]; [4; 5; 0]], [0; 1]).
Proof. reflexivity. Qed.

Example ex_tokenizer :
  Tokenizer.call Tokenizer.ascii_lower (Tokenizer.mk true) "Climax is  nice"
  = ["climax"; "is"; ""; "nice"]%string.
Proof. reflexivity. Qed.
